(** * Game session manager of [server.js]

    A shallow embedding of the socket handlers of [src/server.js] and of the
    hourly cleanup timer, followed by the properties of the session table
    that the specification states.

    Conventions of the embedding.
    - The table [games] (a JS object used as a dictionary) is a
      [gmap string Game], read by own key. For the names in
      [inherited_names] the expression [games[gameId]] yields something
      although no session is stored; what the handlers do with such an id
      is outside the model, and the statements that speak of an id without
      a session say so.
    - Every event carries its payload object. A request that carries none
      makes the destructuring in the parameter list of the handler throw
      before its body runs; that, too, is outside the model.
    - Socket ids and game ids are strings; ['w'] and ['b'] are [White] and
      [Black]; [Date.now()] is an integer number of milliseconds, read once
      per handler invocation and passed in as [now].
    - [finished] is [false] and [result] is [None] as long as the handler
      that assigns them has not run (the fields are absent from the object
      literal of [create-game]).
    - [socket.emit], [io.to(room).emit] and [socket.join] are recorded, in
      program order, in the list of effects a handler returns; console
      output is not part of the model.
    - [chess.js] is an external collaborator: the handlers are written over
      an arbitrary [RulesEngine]. *)

From stdpp Require Import gmap strings list fin_maps.
From Stdlib Require Import ZArith Lia.

Local Open Scope Z_scope.

(** ** Data model *)

Inductive Color : Type := White | Black.

#[global] Instance Color_eq_dec : EqDecision Color.
Proof. solve_decision. Defined.

(** [c === 'w' ? 'b' : 'w'] *)
Definition flip (c : Color) : Color :=
  match c with White => Black | Black => White end.

(** The values ever stored in [game.result]: ['draw'], ['w'] or ['b']. *)
Inductive Outcome : Type :=
  | Draw
  | Winner (c : Color).

#[global] Instance Outcome_eq_dec : EqDecision Outcome.
Proof. solve_decision. Defined.

Record PlayerInfo : Type := mkInfo {
  color : Color;
  connected : bool;
  lastSeen : Z
}.

(** What [gameState.move({from, to, promotion: 'q'})] can do: return a move
    object (the position has advanced), return a falsy value (the move was
    refused, the position is as before), or throw. *)
Inductive MoveResult (P M : Type) : Type :=
  | Moved (next : P) (mv : M)
  | NoMove
  | MoveThrows (message : string).

Arguments Moved {P M} next mv.
Arguments NoMove {P M}.
Arguments MoveThrows {P M} message.

(** The part of [chess.js] the server calls. *)
Class RulesEngine : Type := {
  Position : Type;
  MoveObj : Type;
  newChess : Position;
  move : Position → string → string → MoveResult Position MoveObj;
  fen : Position → string;
  isCheck : Position → bool;
  isCheckmate : Position → bool;
  isDraw : Position → bool
}.

(** [players.indexOf(id)]: the first index holding [id], or [-1]. *)
Fixpoint indexOf_from (id : string) (l : list string) (i : Z) : Z :=
  match l with
  | [] => -1
  | x :: l' => if decide (x = id) then i else indexOf_from id l' (i + 1)
  end.

Definition indexOf (id : string) (l : list string) : Z := indexOf_from id l 0.

(** [playerIndex === 0 ? 'w' : 'b'] *)
Definition colorOfIndex (playerIndex : Z) : Color :=
  if playerIndex =? 0 then White else Black.

(** [playerIndex === 0 ? 1 : 0] *)
Definition opponentOfIndex (playerIndex : Z) : nat :=
  if playerIndex =? 0 then 1%nat else 0%nat.

(** The colour bound to the slot an identity occupies: index 0 is White,
    index 1 is Black, and an identity outside [players] has no slot. *)
Definition slotColor (id : string) (l : list string) : option Color :=
  match indexOf id l with
  | 0 => Some White
  | 1 => Some Black
  | _ => None
  end.

(** [24 * 60 * 60 * 1000] *)
Definition RETENTION_MS : Z := 24 * 60 * 60 * 1000.

(** The names under which [games[gameId]] can yield something although no
    session is stored there: the properties every object inherits from
    [Object.prototype], and the three fields that [sync-game-state] and
    [accept-draw] assign on whatever the lookup yields, which a request for
    ["__proto__"] thereby adds to [Object.prototype]. Under every other
    name [games[gameId]] is the session stored there, or [undefined]. *)
Definition inherited_names : list string :=
  ["__proto__"; "constructor"; "hasOwnProperty"; "isPrototypeOf";
   "propertyIsEnumerable"; "toLocaleString"; "toString"; "valueOf";
   "__defineGetter__"; "__defineSetter__"; "__lookupGetter__"; "__lookupSetter__";
   "lastActivity"; "finished"; "result"].

Definition inherited_name (id : string) : bool :=
  bool_decide (id ∈ inherited_names).

Section Server.

Context `{engine : RulesEngine}.

Record Game : Type := mkGame {
  gameState : Position;
  players : list string;
  turn : Color;
  lastActivity : Z;
  playerInfo : gmap string PlayerInfo;
  finished : bool;
  result : option Outcome
}.

Definition set_lastActivity (t : Z) (g : Game) : Game :=
  mkGame (gameState g) (players g) (turn g) t (playerInfo g) (finished g) (result g).

Definition set_players (ps : list string) (g : Game) : Game :=
  mkGame (gameState g) ps (turn g) (lastActivity g) (playerInfo g) (finished g) (result g).

Definition set_playerInfo (pi : gmap string PlayerInfo) (g : Game) : Game :=
  mkGame (gameState g) (players g) (turn g) (lastActivity g) pi (finished g) (result g).

Definition set_position_turn (p : Position) (c : Color) (g : Game) : Game :=
  mkGame p (players g) c (lastActivity g) (playerInfo g) (finished g) (result g).

Definition set_finished (r : Outcome) (g : Game) : Game :=
  mkGame (gameState g) (players g) (turn g) (lastActivity g) (playerInfo g) true (Some r).

(** The position summary every state message carries. *)
Record Snapshot : Type := mkSnapshot {
  snap_fen : string;
  snap_turn : Color;
  snap_isCheck : bool;
  snap_isCheckmate : bool;
  snap_isDraw : bool
}.

Definition snapshot (g : Game) : Snapshot :=
  mkSnapshot (fen (gameState g)) (turn g) (isCheck (gameState g))
    (isCheckmate (gameState g)) (isDraw (gameState g)).

(** Outbound events with their payloads. *)
Inductive Message : Type :=
  | GameStateSynced (s : Snapshot)
  | GameCreated (gameId : string) (c : Color)
  | GameJoined (gameId : string) (c : Color)
  | GameStart (fen_ : string) (turn_ : Color)
  | ErrorMsg (message : string)
  | MoveMade (from to : string) (s : Snapshot) (mv : MoveObj)
  | YourTurn
  | ReconnectedToGame (gameId : string) (c : Color) (s : Snapshot)
  | OpponentReconnected
  | DrawOffered
  | DrawAccepted
  | PlayerResigned (winner : Color)
  | OpponentDisconnected.

(** Calls into the transport. [SocketEmit] is [socket.emit] on the
    requester's own socket, [RoomEmit] is [io.to(room).emit], where the room
    is a game id or a socket id. *)
Inductive Effect : Type :=
  | SocketEmit (socketId : string) (m : Message)
  | RoomEmit (room : string) (m : Message)
  | SocketJoin (socketId : string) (room : string).

(** Outcome of one handler invocation: the table it leaves behind, what it
    sent, and whether it ended by an exception nobody catches. *)
Record Reply : Type := mkReply {
  table : gmap string Game;
  sent : list Effect;
  uncaught : bool
}.

Definition done_with (games : gmap string Game) (out : list Effect) : Reply :=
  mkReply games out false.

(** ** Handlers *)

(** [socket.on('sync-game-state', ...)] *)
Definition sync_game_state (now : Z) (socketId gameId : string)
    (games : gmap string Game) : Reply :=
  match games !! gameId with
  | Some game =>
      let game' := set_lastActivity now game in
      done_with (<[gameId := game']> games)
        [SocketEmit socketId (GameStateSynced (snapshot game'))]
  | None => done_with games []
  end.

(** [socket.on('create-game', ...)]; [gameId] is the token drawn from
    [Math.random()]. *)
Definition create_game (now : Z) (socketId gameId : string)
    (games : gmap string Game) : Reply :=
  let game :=
    mkGame newChess [socketId] White now
      {[ socketId := mkInfo White true now ]} false None in
  done_with (<[gameId := game]> games)
    [SocketJoin socketId gameId; SocketEmit socketId (GameCreated gameId White)].

(** [socket.on('join-game', ...)] *)
Definition join_game (now : Z) (socketId gameId : string)
    (games : gmap string Game) : Reply :=
  match games !! gameId with
  | Some game =>
      if (length (players game) <? 2)%nat then
        let game' :=
          set_lastActivity now
            (set_playerInfo (<[socketId := mkInfo Black true now]> (playerInfo game))
               (set_players (players game ++ [socketId]) game)) in
        done_with (<[gameId := game']> games)
          [SocketJoin socketId gameId;
           SocketEmit socketId (GameJoined gameId Black);
           RoomEmit gameId (GameStart (fen (gameState game')) (turn game'))]
      else done_with games [SocketEmit socketId (ErrorMsg "Game not found or full")]
  | None => done_with games [SocketEmit socketId (ErrorMsg "Game not found or full")]
  end.

(** The [your-turn] notification at the end of an applied move:
    [nextPlayerId && game.playerInfo[nextPlayerId]?.connected]. *)
Definition your_turn_notice (game : Game) : list Effect :=
  let nextPlayerIndex := match turn game with White => 0%nat | Black => 1%nat end in
  match players game !! nextPlayerIndex with
  | Some nextPlayerId =>
      match nextPlayerId with
      | EmptyString => []
      | _ =>
          match playerInfo game !! nextPlayerId with
          | Some info => if connected info then [RoomEmit nextPlayerId YourTurn] else []
          | None => []
          end
      end
  | None => []
  end.

(** [socket.on('make-move', ...)], the whole body being inside [try]. *)
Definition make_move (now : Z) (socketId gameId from to : string)
    (games : gmap string Game) : Reply :=
  match games !! gameId with
  | None => done_with games []
  | Some game =>
      let playerIndex := indexOf socketId (players game) in
      let playerColor := colorOfIndex playerIndex in
      if decide (turn game ≠ playerColor) then
        done_with games [SocketEmit socketId (ErrorMsg "Not your turn")]
      else
        match move (gameState game) from to with
        | Moved next mv =>
            let game' :=
              set_lastActivity now (set_position_turn next (flip (turn game)) game) in
            done_with (<[gameId := game']> games)
              (RoomEmit gameId (MoveMade from to (snapshot game') mv)
                 :: your_turn_notice game')
        | NoMove => done_with games []
        | MoveThrows message =>
            done_with games [SocketEmit socketId (ErrorMsg message)]
        end
  end.

(** [socket.on('heartbeat', ...)] *)
Definition heartbeat (now : Z) (socketId gameId : string)
    (games : gmap string Game) : Reply :=
  match games !! gameId with
  | Some game =>
      match playerInfo game !! socketId with
      | Some info =>
          let info' := mkInfo (color info) true now in
          done_with
            (<[gameId := set_playerInfo (<[socketId := info']> (playerInfo game)) game]> games)
            []
      | None => done_with games []
      end
  | None => done_with games []
  end.

(** Notification of the other slot, guarded by
    [game.players.length > opponentIndex]. *)
Definition notify_opponent (ps : list string) (opponentIndex : nat) (m : Message)
    : list Effect :=
  match ps !! opponentIndex with
  | Some opponentId => [RoomEmit opponentId m]
  | None => []
  end.

(** [socket.on('reconnect-to-game', ...)]. When [previousId] holds a slot
    but has no [playerInfo] entry, the assignment
    [game.playerInfo[socket.id].connected = true] throws a [TypeError] that
    nothing catches. By then the slot has been rewritten and the entry
    under [socket.id] holds [undefined], which every reader of [playerInfo]
    takes for a missing entry. *)
Definition reconnect_to_game (now : Z) (socketId gameId previousId : string)
    (games : gmap string Game) : Reply :=
  match games !! gameId with
  | None => done_with games [SocketEmit socketId (ErrorMsg "Game not found")]
  | Some game =>
      let playerIndex := indexOf previousId (players game) in
      if decide (playerIndex ≠ -1) then
        let players' := <[Z.to_nat playerIndex := socketId]> (players game) in
        match playerInfo game !! previousId with
        | None =>
            mkReply
              (<[gameId := set_playerInfo (delete socketId (playerInfo game))
                             (set_players players' game)]> games)
              [] true
        | Some info =>
            let info' := mkInfo (color info) true now in
            let game' :=
              set_playerInfo (delete previousId (<[socketId := info']> (playerInfo game)))
                (set_players players' game) in
            done_with (<[gameId := game']> games)
              ([SocketJoin socketId gameId;
                SocketEmit socketId
                  (ReconnectedToGame gameId (colorOfIndex playerIndex) (snapshot game'))]
               ++ notify_opponent players' (opponentOfIndex playerIndex) OpponentReconnected)
        end
      else
        done_with games
          [SocketEmit socketId (ErrorMsg "You are not a player in this game")]
  end.

(** [socket.on('offer-draw', ...)] *)
Definition offer_draw (now : Z) (socketId gameId : string)
    (games : gmap string Game) : Reply :=
  match games !! gameId with
  | None => done_with games []
  | Some game =>
      let playerIndex := indexOf socketId (players game) in
      let opponentIndex := opponentOfIndex playerIndex in
      if (opponentIndex <? length (players game))%nat then
        done_with (<[gameId := set_lastActivity now game]> games)
          (notify_opponent (players game) opponentIndex DrawOffered)
      else done_with games []
  end.

(** [socket.on('accept-draw', ...)] *)
Definition accept_draw (now : Z) (socketId gameId : string)
    (games : gmap string Game) : Reply :=
  match games !! gameId with
  | None => done_with games []
  | Some game =>
      done_with (<[gameId := set_finished Draw (set_lastActivity now game)]> games)
        [RoomEmit gameId DrawAccepted]
  end.

(** [socket.on('resign-game', ...)] *)
Definition resign_game (now : Z) (socketId gameId : string)
    (games : gmap string Game) : Reply :=
  match games !! gameId with
  | None => done_with games []
  | Some game =>
      let playerIndex := indexOf socketId (players game) in
      let playerColor := colorOfIndex playerIndex in
      let winner := flip playerColor in
      done_with
        (<[gameId := set_finished (Winner winner) (set_lastActivity now game)]> games)
        [RoomEmit gameId (PlayerResigned winner)]
  end.

(** One round of the loop of [socket.on('disconnect', ...)]. *)
Definition disconnect_game (now : Z) (socketId : string) (game : Game) : Game :=
  if decide (indexOf socketId (players game) ≠ -1) then
    match playerInfo game !! socketId with
    | Some info =>
        set_playerInfo (<[socketId := mkInfo (color info) false now]> (playerInfo game)) game
    | None => game
    end
  else game.

Definition disconnect_notice (socketId : string) (game : Game) : list Effect :=
  let playerIndex := indexOf socketId (players game) in
  if decide (playerIndex ≠ -1) then
    notify_opponent (players game) (opponentOfIndex playerIndex) OpponentDisconnected
  else [].

(** [socket.on('disconnect', ...)]: every game is visited once. The order
    in which the notices of different games are sent follows the table's
    enumeration. *)
Definition disconnect (now : Z) (socketId : string)
    (games : gmap string Game) : Reply :=
  done_with (disconnect_game now socketId <$> games)
    (concat (map (λ kv, disconnect_notice socketId kv.2) (map_to_list games))).

(** Body of the loop of the cleanup timer, for one key. *)
Definition cleanup_key (now : Z) (games : gmap string Game) (gameId : string)
    : gmap string Game :=
  match games !! gameId with
  | Some game =>
      if decide (now - lastActivity game > RETENTION_MS) then delete gameId games
      else games
  | None => games
  end.

(** The callback of [setInterval]: [Object.keys(games).forEach(...)]. *)
Definition cleanup (now : Z) (games : gmap string Game) : gmap string Game :=
  foldl (cleanup_key now) games (elements (dom games)).

(** ** The server as a transition system *)

Inductive Event : Type :=
  | SyncGameState (socketId gameId : string)
  | CreateGame (socketId gameId : string)
  | JoinGame (socketId gameId : string)
  | MakeMove (socketId gameId from to : string)
  | Heartbeat (socketId gameId : string)
  | ReconnectToGame (socketId gameId previousId : string)
  | OfferDraw (socketId gameId : string)
  | AcceptDraw (socketId gameId : string)
  | ResignGame (socketId gameId : string)
  | Disconnect (socketId : string)
  | CleanupTick.

Definition handle (now : Z) (e : Event) (games : gmap string Game) : Reply :=
  match e with
  | SyncGameState s g => sync_game_state now s g games
  | CreateGame s g => create_game now s g games
  | JoinGame s g => join_game now s g games
  | MakeMove s g from to => make_move now s g from to games
  | Heartbeat s g => heartbeat now s g games
  | ReconnectToGame s g p => reconnect_to_game now s g p games
  | OfferDraw s g => offer_draw now s g games
  | AcceptDraw s g => accept_draw now s g games
  | ResignGame s g => resign_game now s g games
  | Disconnect s => disconnect now s games
  | CleanupTick => done_with (cleanup now games) []
  end.

(** Events are handled one at a time, each to completion. An uncaught
    exception ends the run with the table as the failing handler left it. *)
Fixpoint run (evs : list (Z * Event)) (games : gmap string Game) : Reply :=
  match evs with
  | [] => done_with games []
  | (now, e) :: rest =>
      let r := handle now e games in
      if uncaught r then r
      else
        let r' := run rest (table r) in
        mkReply (table r') (sent r ++ sent r') (uncaught r')
  end.

End Server.

(** ** A small rules engine for concrete runs

    Positions are the list of moves played so far. A move whose two squares
    coincide, or that starts from the empty square name, is illegal, and
    the engine throws on it as [chess.js] does; any other move is applied. *)
Definition sampleMove (p : list (string * string)) (from to : string)
    : MoveResult (list (string * string)) (string * string) :=
  match from with
  | EmptyString => MoveThrows "Invalid move"
  | _ =>
      if decide (from = to) then MoveThrows "Invalid move"
      else Moved (p ++ [(from, to)]) (from, to)
  end.

Definition sampleEngine : RulesEngine := {|
  Position := list (string * string);
  MoveObj := string * string;
  newChess := [];
  move := sampleMove;
  fen := λ p, foldr (λ m acc, m.1 +:+ m.2 +:+ acc) EmptyString p;
  isCheck := λ _, false;
  isCheckmate := λ _, false;
  isDraw := λ _, false
|}.

(** ** Notions used in the statements *)

Section Notions.

Context `{engine : RulesEngine}.

(** Every session of the table has at most two slots. *)
Definition players_bounded (games : gmap string Game) : Prop :=
  ∀ gameId game, games !! gameId = Some game → (length (players game) ≤ 2)%nat.

(** A move was accepted when the reply broadcasts [move-made] to the room
    of the game. *)
Definition move_accepted (gameId : string) (r : Reply) : Prop :=
  ∃ from to s mv, RoomEmit gameId (MoveMade from to s mv) ∈ sent r.

(** The events that end a game: [accept-draw] and [resign-game]. *)
Definition closes (gameId : string) (e : Event) : Prop :=
  match e with
  | AcceptDraw _ g | ResignGame _ g => g = gameId
  | _ => False
  end.

(** What a closing event stores in [result], given the slots. *)
Definition closing_outcome (ps : list string) (e : Event) : Outcome :=
  match e with
  | ResignGame s _ => Winner (flip (colorOfIndex (indexOf s ps)))
  | _ => Draw
  end.

(** The handler leaves [lastActivity = now] in every existing session. *)
Definition touches_lastActivity
    (h : Z → string → string → gmap string Game → Reply) : Prop :=
  ∀ now socketId gameId games game,
    games !! gameId = Some game →
    ∃ game', table (h now socketId gameId games) !! gameId = Some game'
             ∧ lastActivity game' = now.

(** The handler does nothing and sends nothing for an unknown game id. *)
Definition ignores_unknown_game
    (h : Z → string → string → gmap string Game → Reply) : Prop :=
  ∀ now socketId gameId games,
    games !! gameId = None → h now socketId gameId games = done_with games [].

(** The specification's sentence on [lastActivity]: each of offerDraw,
    acceptDraw and resign updates it in every existing session. *)
Definition spec_draw_resign_touch : Prop :=
  (touches_lastActivity offer_draw ∧ touches_lastActivity accept_draw
   ∧ touches_lastActivity resign_game)
  ∧ (ignores_unknown_game offer_draw ∧ ignores_unknown_game accept_draw
     ∧ ignores_unknown_game resign_game).

(** The specification's sentence on [result]: a closing event sets
    [finished] and [result], and a later closing event on the same session
    leaves [result] as it was. *)
Definition spec_result_set_once : Prop :=
  ∀ games gameId game now e now' e',
    games !! gameId = Some game → closes gameId e → closes gameId e' →
    ∃ game1 game2,
      table (handle now e games) !! gameId = Some game1
      ∧ finished game1 = true ∧ is_Some (result game1)
      ∧ table (handle now' e' (table (handle now e games))) !! gameId = Some game2
      ∧ result game2 = result game1.

(** The engine did not apply the move. *)
Definition rejected {P M : Type} (r : MoveResult P M) : Prop :=
  match r with
  | Moved _ _ => False
  | NoMove | MoveThrows _ => True
  end.

(** The specification's sentence on illegal moves: a move of the side to
    move that the engine rejects changes nothing, and nothing is sent, not
    even an error to the mover. *)
Definition spec_rejected_move_is_silent : Prop :=
  ∀ now socketId gameId from to games game,
    games !! gameId = Some game →
    turn game = colorOfIndex (indexOf socketId (players game)) →
    rejected (move (gameState game) from to) →
    make_move now socketId gameId from to games = done_with games [].


Definition target (e : Event) : option string :=
  match e with
  | SyncGameState _ g | CreateGame _ g | JoinGame _ g | MakeMove _ g _ _
  | Heartbeat _ g | ReconnectToGame _ g _ | OfferDraw _ g | AcceptDraw _ g
  | ResignGame _ g => Some g
  | Disconnect _ | CleanupTick => None
  end.

(** The event is not addressed to one of the [inherited_names]. *)
Definition plainly_addressed (e : Event) : Prop :=
  ∀ gameId, target e = Some gameId → inherited_name gameId = false.

(** [create-game] drawing the given id. *)
Definition creates (gameId : string) (e : Event) : Prop :=
  match e with
  | CreateGame _ g => g = gameId
  | _ => False
  end.

(** The events by which a connection shows that it is alive, back or gone. *)
Definition liveness_signal (e : Event) : Prop :=
  match e with
  | Heartbeat _ _ | ReconnectToGame _ _ _ | Disconnect _ => True
  | _ => False
  end.

(** Every session has a player in slot 0. *)
Definition players_nonempty (games : gmap string Game) : Prop :=
  ∀ gameId game, games !! gameId = Some game → players game ≠ [].

(** Every identity with a [playerInfo] entry holds a slot. *)
Definition info_keys_hold_slots (games : gmap string Game) : Prop :=
  ∀ gameId game id,
    games !! gameId = Some game → is_Some (playerInfo game !! id) → id ∈ players game.

(** The object literal of [create-game]. *)
Definition new_game (now : Z) (socketId : string) : Game :=
  mkGame newChess [socketId] White now {[ socketId := mkInfo White true now ]}
    false None.

(** What one event, handled at time [now], can make of the session stored
    under [gameId]. *)
Inductive evolves (now : Z) (gameId : string) (game : Game) : Event → Game → Prop :=
  | evolves_not e :
      evolves now gameId game e game
  | evolves_sync s :
      evolves now gameId game (SyncGameState s gameId) (set_lastActivity now game)
  | evolves_create s :
      evolves now gameId game (CreateGame s gameId) (new_game now s)
  | evolves_join s :
      (length (players game) < 2)%nat →
      evolves now gameId game (JoinGame s gameId)
        (set_lastActivity now
           (set_playerInfo (<[s := mkInfo Black true now]> (playerInfo game))
              (set_players (players game ++ [s]) game)))
  | evolves_move s from to next mv :
      turn game = colorOfIndex (indexOf s (players game)) →
      move (gameState game) from to = Moved next mv →
      evolves now gameId game (MakeMove s gameId from to)
        (set_lastActivity now (set_position_turn next (flip (turn game)) game))
  | evolves_heartbeat s info :
      playerInfo game !! s = Some info →
      evolves now gameId game (Heartbeat s gameId)
        (set_playerInfo (<[s := mkInfo (color info) true now]> (playerInfo game)) game)
  | evolves_reconnect s p info :
      p ∈ players game →
      playerInfo game !! p = Some info →
      evolves now gameId game (ReconnectToGame s gameId p)
        (set_playerInfo
           (delete p (<[s := mkInfo (color info) true now]> (playerInfo game)))
           (set_players (<[Z.to_nat (indexOf p (players game)) := s]> (players game))
              game))
  | evolves_reconnect_throw s p :
      p ∈ players game →
      playerInfo game !! p = None →
      evolves now gameId game (ReconnectToGame s gameId p)
        (set_playerInfo (delete s (playerInfo game))
           (set_players (<[Z.to_nat (indexOf p (players game)) := s]> (players game))
              game))
  | evolves_offer s :
      evolves now gameId game (OfferDraw s gameId) (set_lastActivity now game)
  | evolves_accept s :
      evolves now gameId game (AcceptDraw s gameId)
        (set_finished Draw (set_lastActivity now game))
  | evolves_resign s :
      evolves now gameId game (ResignGame s gameId)
        (set_finished (Winner (flip (colorOfIndex (indexOf s (players game)))))
           (set_lastActivity now game))
  | evolves_disconnect s info :
      s ∈ players game →
      playerInfo game !! s = Some info →
      evolves now gameId game (Disconnect s)
        (set_playerInfo (<[s := mkInfo (color info) false now]> (playerInfo game)) game).

End Notions.

(** ** Concrete tables for the sample engine *)

(** A game waiting for its second player. *)
Definition lobby_table : gmap string (Game (engine := sampleEngine)) :=
  table (run [(1, CreateGame "A" "g1")] ∅).

Definition lobby_game : Game (engine := sampleEngine) :=
  mkGame (engine := sampleEngine) [] ["A"] White 1
    {["A" := mkInfo White true 1]} false None.

(** A game between "A" and "B" after White's first move. *)
Definition opening_events : list (Z * Event) :=
  [(1, CreateGame "A" "g1"); (2, JoinGame "B" "g1");
   (3, MakeMove "A" "g1" "e2" "e4")].

Definition opening_table : gmap string (Game (engine := sampleEngine)) :=
  table (run opening_events ∅).

(** The opening followed by two more attempts to join. *)
Definition crowded_events : list (Z * Event) :=
  opening_events ++ [(4, JoinGame "C" "g1"); (5, JoinGame "A" "g1")].

Definition crowded_table : gmap string (Game (engine := sampleEngine)) :=
  table (run crowded_events ∅).

Definition opening_game : Game (engine := sampleEngine) :=
  mkGame (engine := sampleEngine) [("e2", "e4")] ["A"; "B"] Black 3
    (<["B" := mkInfo Black true 2]> {["A" := mkInfo White true 1]}) false None.

(** The same game after Black's answer at time 4. *)
Definition answered_game : Game (engine := sampleEngine) :=
  mkGame (engine := sampleEngine) [("e2", "e4"); ("e7", "e5")] ["A"; "B"] White 4
    (<["B" := mkInfo Black true 2]> {["A" := mkInfo White true 1]}) false None.

(** The same game after "C" has taken over the slot of "B" at time 8. *)
Definition handover_game : Game (engine := sampleEngine) :=
  mkGame (engine := sampleEngine) [("e2", "e4")] ["A"; "C"] Black 3
    (<["C" := mkInfo Black true 8]> {["A" := mkInfo White true 1]}) false None.

(** The same game after a draw was accepted at time 5, and what a busy
    afternoon makes of it. *)
Definition drawn_table : gmap string (Game (engine := sampleEngine)) :=
  table (accept_draw 5 "A" "g1" opening_table).

Definition drawn_game : Game (engine := sampleEngine) :=
  mkGame (engine := sampleEngine) [("e2", "e4")] ["A"; "B"] Black 5
    (<["B" := mkInfo Black true 2]> {["A" := mkInfo White true 1]}) true (Some Draw).

Definition afternoon_events : list (Z * Event) :=
  [(6, SyncGameState "Z" "g1"); (7, MakeMove "B" "g1" "e7" "e5");
   (8, ReconnectToGame "C" "g1" "B"); (9, Disconnect "A");
   (10, CreateGame "D" "g2"); (86400000, CleanupTick)].

Definition evening_game : Game (engine := sampleEngine) :=
  mkGame (engine := sampleEngine) [("e2", "e4"); ("e7", "e5")] ["A"; "C"] White 7
    (<["C" := mkInfo Black true 8]> {["A" := mkInfo White false 9]}) true (Some Draw).

(** ** Auxiliary facts *)

Lemma RETENTION_MS_is_24h : RETENTION_MS = 86400000.
Proof. reflexivity. Qed.

Lemma flip_involutive c : flip (flip c) = c.
Proof. by destruct c. Qed.

Lemma flip_ne c : flip c ≠ c.
Proof. by destruct c. Qed.

Lemma indexOf_from_notin id l i : id ∉ l → indexOf_from id l i = -1.
Proof.
  revert i. induction l as [|x l IH]; intros i Hnot; simpl; [done|].
  apply not_elem_of_cons in Hnot as [Hne Hnot].
  destruct (decide (x = id)) as [->|_]; [done|]. by apply IH.
Qed.

Lemma indexOf_from_range id l i :
  id ∈ l → i ≤ indexOf_from id l i < i + Z.of_nat (length l).
Proof.
  revert i. induction l as [|x l IH]; intros i Hin; simpl.
  - by apply elem_of_nil in Hin.
  - destruct (decide (x = id)) as [->|Hne]; [lia|].
    apply elem_of_cons in Hin as [->|Hin]; [done|].
    specialize (IH (i + 1) Hin). lia.
Qed.

Lemma indexOf_from_lookup id l i :
  id ∈ l → l !! Z.to_nat (indexOf_from id l i - i) = Some id.
Proof.
  revert i. induction l as [|x l IH]; intros i Hin; simpl.
  - by apply elem_of_nil in Hin.
  - destruct (decide (x = id)) as [->|Hne].
    + by rewrite Z.sub_diag.
    + apply elem_of_cons in Hin as [->|Hin]; [done|].
      pose proof (indexOf_from_range id l (i + 1) Hin) as Hr.
      replace (Z.to_nat (indexOf_from id l (i + 1) - i))
        with (S (Z.to_nat (indexOf_from id l (i + 1) - (i + 1)))) by lia.
      by apply IH.
Qed.

Lemma indexOf_notin id l : id ∉ l → indexOf id l = -1.
Proof. apply indexOf_from_notin. Qed.

Lemma indexOf_in id l : id ∈ l → 0 ≤ indexOf id l < Z.of_nat (length l).
Proof. intros Hin. apply (indexOf_from_range id l 0 Hin). Qed.

Lemma indexOf_minus_one id l : indexOf id l = -1 ↔ id ∉ l.
Proof.
  split; [|apply indexOf_notin].
  intros Heq Hin. apply indexOf_in in Hin. lia.
Qed.

Lemma indexOf_lookup id l : id ∈ l → l !! Z.to_nat (indexOf id l) = Some id.
Proof.
  intros Hin. pose proof (indexOf_from_lookup id l 0 Hin) as H.
  by rewrite Z.sub_0_r in H.
Qed.

(** An identity outside [players] is given the colour of slot 1 although
    it holds no slot. *)
Lemma colorOfIndex_outsider id l : id ∉ l → colorOfIndex (indexOf id l) = Black.
Proof. intros Hnot. by rewrite (indexOf_notin _ _ Hnot). Qed.

Lemma slotColor_outsider id l : id ∉ l → slotColor id l = None.
Proof. intros Hnot. unfold slotColor. by rewrite (indexOf_notin _ _ Hnot). Qed.

(** For an identity that holds one of the two slots, the colour the
    handlers compute is the colour of its slot. *)
Lemma slotColor_occupant id l :
  id ∈ l → (length l ≤ 2)%nat → slotColor id l = Some (colorOfIndex (indexOf id l)).
Proof.
  intros Hin Hlen. pose proof (indexOf_in id l Hin) as Hr.
  unfold slotColor, colorOfIndex.
  assert (indexOf id l = 0 ∨ indexOf id l = 1) as [-> | ->] by lia; done.
Qed.

Section Facts.

Context `{engine : RulesEngine}.

Implicit Types (games : gmap string Game) (game : Game).

Lemma cleanup_key_lookup now games a k :
  cleanup_key now games a !! k =
    match games !! k with
    | Some game =>
        if decide (a = k ∧ now - lastActivity game > RETENTION_MS) then None
        else Some game
    | None => None
    end.
Proof.
  unfold cleanup_key. destruct (decide (a = k)) as [->|Hne].
  - destruct (games !! k) as [game|] eqn:Hk; [|by rewrite Hk].
    repeat case_decide; rewrite ?lookup_delete_eq, ?Hk; tauto.
  - assert ((match games !! a with
             | Some game =>
                 if decide (now - lastActivity game > RETENTION_MS)
                 then delete a games else games
             | None => games
             end) !! k = games !! k) as ->.
    { destruct (games !! a) as [ga|]; [|done].
      case_decide; [by rewrite lookup_delete_ne|done]. }
    destruct (games !! k) as [game|]; [|done].
    case_decide; tauto.
Qed.

Lemma foldl_cleanup_key_lookup now ks games k :
  foldl (cleanup_key now) games ks !! k =
    match games !! k with
    | Some game =>
        if decide (k ∈ ks ∧ now - lastActivity game > RETENTION_MS) then None
        else Some game
    | None => None
    end.
Proof.
  revert games. induction ks as [|a ks IH]; intros games; cbn [foldl].
  - destruct (games !! k) as [game|]; [|done].
    case_decide as H; [|done]. destruct H as [Hin _]. by apply elem_of_nil in Hin.
  - rewrite IH, cleanup_key_lookup.
    destruct (games !! k) as [game|]; [|done].
    assert (k ∈ a :: ks ↔ a = k ∨ k ∈ ks) as Hcons.
    { rewrite elem_of_cons. split; intros [?|?]; auto. }
    repeat case_decide; try done; exfalso; tauto.
Qed.

(** What one sweep does to each entry of the table. *)
Lemma cleanup_lookup now games k :
  cleanup now games !! k =
    match games !! k with
    | Some game =>
        if decide (now - lastActivity game > RETENTION_MS) then None else Some game
    | None => None
    end.
Proof.
  unfold cleanup. rewrite foldl_cleanup_key_lookup.
  destruct (games !! k) as [game|] eqn:Hk; [|done].
  assert (k ∈ elements (dom games)) as Hin.
  { apply elem_of_elements, elem_of_dom. by exists game. }
  repeat case_decide; try done; exfalso; tauto.
Qed.

(** *** The two-slot bound *)

Lemma players_bounded_empty : players_bounded ∅.
Proof. intros gameId game Hk. by rewrite lookup_empty in Hk. Qed.

Lemma players_bounded_insert games gameId game :
  players_bounded games → (length (players game) ≤ 2)%nat →
  players_bounded (<[gameId := game]> games).
Proof.
  intros Hb Hlen k g Hk. destruct (decide (gameId = k)) as [->|Hne].
  - rewrite lookup_insert_eq in Hk. by inversion Hk; subst.
  - rewrite lookup_insert_ne in Hk by done. by eapply Hb.
Qed.

Lemma players_disconnect_game now socketId game :
  players (disconnect_game now socketId game) = players game.
Proof.
  unfold disconnect_game. case_decide; [|done].
  by destruct (playerInfo game !! socketId).
Qed.

Lemma cleanup_lookup_Some now games gameId game :
  cleanup now games !! gameId = Some game → games !! gameId = Some game.
Proof.
  rewrite cleanup_lookup. destruct (games !! gameId) as [g|]; [|done].
  by case_decide.
Qed.

Local Ltac bounded_step Hb :=
  first
    [ exact Hb
    | apply players_bounded_insert; [exact Hb | cbn; try rewrite length_insert; eauto] ].

Lemma handle_players_bounded now e games :
  players_bounded games → players_bounded (table (handle now e games)).
Proof.
  intros Hb.
  destruct e as [s g|s g|s g|s g from to|s g|s g p|s g|s g|s g|s|]; cbn [handle].
  - unfold sync_game_state. destruct (games !! g) as [game|] eqn:Hg; bounded_step Hb.
  - unfold create_game. bounded_step Hb.
  - unfold join_game. destruct (games !! g) as [game|] eqn:Hg; [|bounded_step Hb].
    destruct (length (players game) <? 2)%nat eqn:Hlt; [|bounded_step Hb].
    apply Nat.ltb_lt in Hlt. cbn [table done_with].
    apply players_bounded_insert; [done|]. cbn. rewrite length_app. cbn. lia.
  - unfold make_move. destruct (games !! g) as [game|] eqn:Hg; [|bounded_step Hb].
    case_decide; [bounded_step Hb|].
    destruct (move (gameState game) from to); bounded_step Hb.
  - unfold heartbeat. destruct (games !! g) as [game|] eqn:Hg; [|bounded_step Hb].
    destruct (playerInfo game !! s); bounded_step Hb.
  - unfold reconnect_to_game. destruct (games !! g) as [game|] eqn:Hg; [|bounded_step Hb].
    case_decide; [|bounded_step Hb].
    destruct (playerInfo game !! p); bounded_step Hb.
  - unfold offer_draw. destruct (games !! g) as [game|] eqn:Hg; [|bounded_step Hb].
    destruct (_ <? _)%nat; bounded_step Hb.
  - unfold accept_draw. destruct (games !! g) as [game|] eqn:Hg; bounded_step Hb.
  - unfold resign_game. destruct (games !! g) as [game|] eqn:Hg; bounded_step Hb.
  - unfold disconnect. cbn [table done_with]. intros k game Hk.
    rewrite lookup_fmap in Hk. destruct (games !! k) as [g0|] eqn:Hg; [|done].
    cbn in Hk. inversion Hk; subst. rewrite players_disconnect_game. by eapply Hb.
  - cbn [table done_with]. intros k game Hk.
    apply cleanup_lookup_Some in Hk. by eapply Hb.
Qed.

Lemma run_players_bounded evs games :
  players_bounded games → players_bounded (table (run evs games)).
Proof.
  revert games. induction evs as [|[now e] evs IH]; intros games Hb; cbn [run].
  - exact Hb.
  - pose proof (handle_players_bounded now e games Hb) as Hstep.
    destruct (uncaught (handle now e games)); [exact Hstep|].
    cbn [table]. by apply IH.
Qed.

(** *** Acceptance of a move *)

Lemma make_move_accepted_inv now socketId gameId from to games game :
  games !! gameId = Some game →
  move_accepted gameId (make_move now socketId gameId from to games) →
  turn game = colorOfIndex (indexOf socketId (players game))
  ∧ ∃ game', table (make_move now socketId gameId from to games) !! gameId = Some game'
             ∧ turn game' = flip (turn game).
Proof.
  intros Hg (f & t & sn & mv & Hin). revert Hin. unfold make_move. rewrite Hg.
  destruct (decide (turn game ≠ colorOfIndex (indexOf socketId (players game))))
    as [Hne|Heq].
  - cbn. intros Hin. apply list_elem_of_singleton in Hin. discriminate.
  - apply dec_stable in Heq.
    destruct (move (gameState game) from to) as [next m| |msg]; cbn.
    + intros _. split; [done|]. eexists. by rewrite lookup_insert_eq.
    + intros Hin. by apply elem_of_nil in Hin.
    + intros Hin. apply list_elem_of_singleton in Hin. discriminate.
Qed.

(** For a requester who holds a slot the turn check is the one the
    specification describes. *)
Lemma make_move_occupant now socketId gameId from to games game :
  games !! gameId = Some game →
  socketId ∈ players game → (length (players game) ≤ 2)%nat →
  move_accepted gameId (make_move now socketId gameId from to games) →
  slotColor socketId (players game) = Some (turn game)
  ∧ ∃ game', table (make_move now socketId gameId from to games) !! gameId = Some game'
             ∧ turn game' = flip (turn game).
Proof.
  intros Hg Hin Hlen Hacc.
  destruct (make_move_accepted_inv _ _ _ _ _ _ _ Hg Hacc) as [Hturn Hflip].
  split; [|done]. rewrite slotColor_occupant by done. by rewrite Hturn.
Qed.

(** *** Closing events *)

Lemma handle_closing now e games gameId game :
  games !! gameId = Some game → closes gameId e →
  handle now e games =
    done_with
      (<[gameId := set_finished (closing_outcome (players game) e)
                     (set_lastActivity now game)]> games)
      [RoomEmit gameId
         match e with
         | ResignGame s _ => PlayerResigned (flip (colorOfIndex (indexOf s (players game))))
         | _ => DrawAccepted
         end].
Proof.
  intros Hg Hc. destruct e; try done; cbn in Hc; subst; cbn [handle].
  - unfold accept_draw. by rewrite Hg.
  - unfold resign_game. by rewrite Hg.
Qed.

Lemma last_cons_default {A} (x y : A) (l : list A) :
  default x (last (y :: l)) = default y (last l).
Proof.
  destruct l as [|z l]; [done|].
  change (last (y :: z :: l)) with (last (z :: l)).
  by destruct (last_is_Some (z :: l)) as [_ [w ->]].
Qed.

End Facts.

(** ** The sample tables, evaluated *)

Example lobby_table_g1 : lobby_table !! "g1" = Some lobby_game.
Proof. by vm_compute. Qed.

Example opening_table_g1 : opening_table !! "g1" = Some opening_game.
Proof. by vm_compute. Qed.

(** A player who reconnects under its own identity loses its [playerInfo]
    entry; doing so again makes the handler throw. *)
Example reconnect_twice_throws :
  uncaught (run (engine := sampleEngine)
              [(1, CreateGame "A" "g1"); (2, ReconnectToGame "A" "g1" "A");
               (3, ReconnectToGame "A" "g1" "A")] ∅) = true.
Proof. reflexivity. Qed.

Example opening_table_not_crashed :
  uncaught (run (engine := sampleEngine) opening_events ∅) = false.
Proof. reflexivity. Qed.

(** ** Turn order *)

(** C1. The turn check of [make-move] lets a requester through who holds no
    slot: in the game of "A" and "B" with Black to move, the move of the
    outsider "C" is broadcast as made and the turn passes to White. *)
Theorem outsider_move_is_accepted :
  opening_table !! "g1" = Some opening_game
  ∧ players opening_game = ["A"; "B"]
  ∧ turn opening_game = Black
  ∧ slotColor "C" (players opening_game) = None
  ∧ move_accepted "g1" (make_move 4 "C" "g1" "e7" "e5" opening_table)
  ∧ ∃ game', table (make_move 4 "C" "g1" "e7" "e5" opening_table) !! "g1" = Some game'
             ∧ turn game' = White ∧ lastActivity game' = 4.
Proof.
  split; [by vm_compute|]. split; [done|]. split; [done|]. split; [done|]. split.
  - exists "e7", "e5", (mkSnapshot "e2e4e7e5" White false false false), ("e7", "e5").
    vm_compute. apply list_elem_of_here.
  - eexists. split; [by vm_compute|]. done.
Qed.

(** ** Reclamation *)

(** C3. One run of the cleanup timer at time [now] removes a session
    exactly when [now - lastActivity] is above 24 hours, whatever its
    [finished] flag; a session that is within the window at the time of
    every run survives any number of runs, unchanged. *)
Theorem cleanup_removes_exactly_expired `{engine : RulesEngine}
    (now : Z) (later : list Z) (games : gmap string Game) gameId game :
  games !! gameId = Some game →
  (cleanup now games !! gameId = None ↔ now - lastActivity game > 24 * 60 * 60 * 1000)
  ∧ (cleanup now games !! gameId = Some game ↔ now - lastActivity game ≤ 24 * 60 * 60 * 1000)
  ∧ (Forall (λ t, t - lastActivity game ≤ 24 * 60 * 60 * 1000) later →
     foldl (λ g t, cleanup t g) games later !! gameId = Some game).
Proof.
  intros Hg. change (24 * 60 * 60 * 1000) with RETENTION_MS.
  pose proof (cleanup_lookup now games gameId) as Hone. rewrite Hg in Hone.
  split; [|split].
  - rewrite Hone. case_decide; split; intros; first [done | lia | exfalso; lia].
  - rewrite Hone. case_decide; split; intros; first [done | lia | exfalso; lia].
  - clear Hone. revert games Hg.
    induction later as [|t later IH]; intros games Hg Hall.
    + exact Hg.
    + inversion Hall as [|? ? Ht Hrest]; subst. cbn beta in Ht.
      cbn [foldl]. apply IH; [|done].
      rewrite cleanup_lookup, Hg. case_decide; [exfalso; lia|done].
Qed.

Lemma cleanup_removes_exactly_expired_witness :
  opening_table !! "g1" = Some opening_game
  ∧ (cleanup 90000003 opening_table !! "g1" = None
     ↔ 90000003 - lastActivity opening_game > 24 * 60 * 60 * 1000)
  ∧ (cleanup 90000003 opening_table !! "g1" = Some opening_game
     ↔ 90000003 - lastActivity opening_game ≤ 24 * 60 * 60 * 1000)
  ∧ (Forall (λ t, t - lastActivity opening_game ≤ 24 * 60 * 60 * 1000)
       [3600000; 7200000; 82800003] →
     foldl (λ g t, cleanup t g) opening_table [3600000; 7200000; 82800003] !! "g1"
     = Some opening_game).
Proof.
  split; [by vm_compute|].
  apply (cleanup_removes_exactly_expired (engine := sampleEngine)
           90000003 [3600000; 7200000; 82800003] opening_table "g1" opening_game).
  by vm_compute.
Defined.

(** The scenario of the specification: idle for 25 hours, removed; idle for
    23 hours, retained. *)
Example cleanup_after_25_hours : cleanup 90000003 opening_table !! "g1" = None.
Proof. by vm_compute. Qed.

Example cleanup_after_23_hours :
  cleanup 82800003 opening_table !! "g1" = Some opening_game.
Proof. by vm_compute. Qed.

(** ** Slots *)

(** C4. Whatever events are handled, in whatever order, no session ever
    has more than two players; and [join-game] extends [players], by the
    requester, only where it had fewer than two entries. *)
Theorem players_never_exceed_two `{engine : RulesEngine}
    (evs : list (Z * Event)) (games : gmap string Game) :
  players_bounded games →
  players_bounded (table (run evs games))
  ∧ ∀ now socketId gameId game,
      table (run evs games) !! gameId = Some game →
      ∃ game',
        table (join_game now socketId gameId (table (run evs games))) !! gameId = Some game'
        ∧ players game' =
            if (length (players game) <? 2)%nat then players game ++ [socketId]
            else players game.
Proof.
  intros Hb. split; [by apply run_players_bounded|].
  intros now socketId gameId game Hg. unfold join_game. rewrite Hg.
  destruct (length (players game) <? 2)%nat; cbn [table done_with].
  - eexists. by rewrite lookup_insert_eq.
  - by exists game.
Qed.

Lemma players_never_exceed_two_witness :
  players_bounded crowded_table
  ∧ ∀ now socketId gameId game,
      crowded_table !! gameId = Some game →
      ∃ game',
        table (join_game now socketId gameId crowded_table) !! gameId = Some game'
        ∧ players game' =
            if (length (players game) <? 2)%nat then players game ++ [socketId]
            else players game.
Proof.
  apply (players_never_exceed_two (engine := sampleEngine) crowded_events ∅).
  intros gameId game Hg. by rewrite lookup_empty in Hg.
Defined.

Example third_join_is_refused :
  join_game 4 "C" "g1" opening_table
  = done_with opening_table [SocketEmit "C" (ErrorMsg "Game not found or full")].
Proof. by vm_compute. Qed.

(** ** Reconnection *)

(** C5. [reconnect-to-game] with a previous identity that holds no slot
    answers the requester alone with the not-a-player error and leaves the
    whole table, hence [players], [playerInfo] and every other field of the
    session, as it was. *)
Theorem reconnect_not_a_player `{engine : RulesEngine}
    now socketId gameId previousId (games : gmap string Game) game :
  games !! gameId = Some game →
  previousId ∉ players game →
  reconnect_to_game now socketId gameId previousId games
  = mkReply games
      [SocketEmit socketId (ErrorMsg "You are not a player in this game")] false.
Proof.
  intros Hg Hnot. unfold reconnect_to_game. rewrite Hg.
  rewrite (indexOf_notin _ _ Hnot). by case_decide.
Qed.

Lemma reconnect_not_a_player_witness :
  opening_table !! "g1" = Some opening_game
  ∧ ("Z" ∉ players opening_game)
  ∧ reconnect_to_game 9 "C" "g1" "Z" opening_table
    = mkReply opening_table
        [SocketEmit "C" (ErrorMsg "You are not a player in this game")] false.
Proof.
  assert ("Z" ∉ players opening_game) as Hnot.
  { apply indexOf_minus_one. reflexivity. }
  split; [by vm_compute|]. split; [exact Hnot|].
  apply (reconnect_not_a_player (engine := sampleEngine) 9 "C" "g1" "Z"
           opening_table opening_game); [by vm_compute|exact Hnot].
Defined.

(** ** Moves the engine rejects *)

(** C7, as the specification words it, fails: in the game of "A" and "B",
    Black, who is to move, asks for the illegal move e7-e7; the engine
    throws, the handler catches the exception and sends Black an error. *)
Lemma rejected_move_is_reported : ¬ spec_rejected_move_is_silent (engine := sampleEngine).
Proof.
  intros Hspec.
  assert (make_move 4 "B" "g1" "e7" "e7" opening_table = done_with opening_table [])
    as Hsilent.
  { apply (Hspec 4 "B" "g1" "e7" "e7" opening_table opening_game);
      [by vm_compute|reflexivity|exact I]. }
  apply (f_equal sent) in Hsilent. vm_compute in Hsilent. discriminate Hsilent.
Qed.

(** C7, amended. When the requester is in turn and the engine rejects the
    move, [make-move] leaves the table as it was, so the turn is not
    flipped and [lastActivity] is not updated, and nothing is sent to any
    room. When the engine signals the rejection by an exception, as
    [chess.js] does, the message of the exception is sent as an error on
    the mover's socket; only a rejection returned as a falsy value passes
    without any message. *)
Theorem rejected_move_leaves_session `{engine : RulesEngine}
    now socketId gameId from to (games : gmap string Game) game :
  games !! gameId = Some game →
  turn game = colorOfIndex (indexOf socketId (players game)) →
  rejected (move (gameState game) from to) →
  table (make_move now socketId gameId from to games) = games
  ∧ table (make_move now socketId gameId from to games) !! gameId = Some game
  ∧ (∀ room m, RoomEmit room m ∉ sent (make_move now socketId gameId from to games))
  ∧ sent (make_move now socketId gameId from to games)
    = match move (gameState game) from to with
      | MoveThrows message => [SocketEmit socketId (ErrorMsg message)]
      | _ => []
      end.
Proof.
  intros Hg Hturn Hrej. unfold make_move. rewrite Hg.
  case_decide as Hne; [done|].
  destruct (move (gameState game) from to) as [next mv| |message]; [done|..];
    cbn [table sent done_with].
  - split; [done|]. split; [done|]. split; [|done].
    intros room m Hin. by apply elem_of_nil in Hin.
  - split; [done|]. split; [done|]. split; [|done].
    intros room m Hin. apply list_elem_of_singleton in Hin. discriminate Hin.
Qed.

Lemma rejected_move_leaves_session_witness :
  table (make_move 4 "B" "g1" "e7" "e7" opening_table) = opening_table
  ∧ table (make_move 4 "B" "g1" "e7" "e7" opening_table) !! "g1" = Some opening_game
  ∧ (∀ room m, RoomEmit room m ∉ sent (make_move 4 "B" "g1" "e7" "e7" opening_table))
  ∧ sent (make_move 4 "B" "g1" "e7" "e7" opening_table)
    = match move (gameState opening_game) "e7" "e7" with
      | MoveThrows message => [SocketEmit "B" (ErrorMsg message)]
      | _ => []
      end.
Proof.
  apply (rejected_move_leaves_session (engine := sampleEngine) 4 "B" "g1" "e7" "e7"
           opening_table opening_game); [by vm_compute|reflexivity|exact I].
Defined.

Example illegal_move_of_the_sample :
  make_move 4 "B" "g1" "e7" "e7" opening_table
  = mkReply opening_table [SocketEmit "B" (ErrorMsg "Invalid move")] false.
Proof. by vm_compute. Qed.

(** ** Requesters that hold no slot *)

(** C8. For a requester outside [players], [indexOf] yields [-1] and the
    colour derived from it is Black: with Black to move, a move the engine
    applies is accepted from that requester, and its resignation closes the
    session with White as the winner. *)
Theorem outsider_acts_as_black `{engine : RulesEngine}
    now socketId gameId from to (games : gmap string Game) game :
  games !! gameId = Some game →
  socketId ∉ players game →
  indexOf socketId (players game) = -1
  ∧ (∀ playerIndex, playerIndex ≠ 0 → colorOfIndex playerIndex = Black)
  ∧ colorOfIndex (indexOf socketId (players game)) = Black
  ∧ (∀ next mv,
       turn game = Black → move (gameState game) from to = Moved next mv →
       move_accepted gameId (make_move now socketId gameId from to games)
       ∧ ∃ game',
           make_move now socketId gameId from to games
           = mkReply (<[gameId := game']> games)
               (RoomEmit gameId
                  (MoveMade from to
                     (mkSnapshot (fen next) White (isCheck next) (isCheckmate next)
                        (isDraw next)) mv)
                :: your_turn_notice game')
               false
           ∧ gameState game' = next ∧ turn game' = White ∧ lastActivity game' = now
           ∧ players game' = players game ∧ playerInfo game' = playerInfo game
           ∧ finished game' = finished game ∧ result game' = result game)
  ∧ ∃ game',
      resign_game now socketId gameId games
      = mkReply (<[gameId := game']> games) [RoomEmit gameId (PlayerResigned White)] false
      ∧ finished game' = true ∧ result game' = Some (Winner White)
      ∧ lastActivity game' = now
      ∧ gameState game' = gameState game ∧ turn game' = turn game
      ∧ players game' = players game ∧ playerInfo game' = playerInfo game.
Proof.
  intros Hg Hnot. pose proof (indexOf_notin _ _ Hnot) as Hidx.
  split; [done|]. split.
  { intros i Hi. unfold colorOfIndex. by destruct (Z.eqb_spec i 0). }
  split; [by rewrite Hidx|]. split.
  - intros next mv Hturn Hmove. unfold make_move, move_accepted.
    rewrite Hg, Hidx, Hmove, Hturn.
    case_decide as Hne; [done|]. cbn [sent done_with]. split.
    + do 4 eexists. apply list_elem_of_here.
    + exists (set_lastActivity now (set_position_turn next White game)). by cbn.
  - unfold resign_game. rewrite Hg, Hidx.
    exists (set_finished (Winner White) (set_lastActivity now game)). by cbn.
Qed.

Lemma outsider_acts_as_black_witness :
  (move_accepted "g1" (make_move 4 "C" "g1" "e7" "e5" opening_table)
   ∧ ∃ game',
       make_move 4 "C" "g1" "e7" "e5" opening_table
       = mkReply (<["g1" := game']> opening_table)
           (RoomEmit "g1"
              (MoveMade (engine := sampleEngine) "e7" "e5"
                 (mkSnapshot (@fen sampleEngine [("e2", "e4"); ("e7", "e5")]) White
                    (@isCheck sampleEngine [("e2", "e4"); ("e7", "e5")])
                    (@isCheckmate sampleEngine [("e2", "e4"); ("e7", "e5")])
                    (@isDraw sampleEngine [("e2", "e4"); ("e7", "e5")]))
                 ("e7", "e5"))
            :: your_turn_notice game')
           false
       ∧ gameState game' = [("e2", "e4"); ("e7", "e5")]
       ∧ turn game' = White ∧ lastActivity game' = 4
       ∧ players game' = players opening_game
       ∧ playerInfo game' = playerInfo opening_game
       ∧ finished game' = finished opening_game ∧ result game' = result opening_game)
  ∧ ∃ game',
      resign_game 4 "C" "g1" opening_table
      = mkReply (<["g1" := game']> opening_table) [RoomEmit "g1" (PlayerResigned White)]
          false
      ∧ finished game' = true ∧ result game' = Some (Winner White)
      ∧ lastActivity game' = 4
      ∧ gameState game' = gameState opening_game ∧ turn game' = turn opening_game
      ∧ players game' = players opening_game
      ∧ playerInfo game' = playerInfo opening_game.
Proof.
  assert ("C" ∉ players opening_game) as Hnot.
  { apply indexOf_minus_one. reflexivity. }
  destruct (outsider_acts_as_black (engine := sampleEngine) 4 "C" "g1" "e7" "e5"
              opening_table opening_game)
    as (_ & _ & _ & Hmove & Hresign); [by vm_compute|exact Hnot|].
  split; [|exact Hresign].
  apply (Hmove [("e2", "e4"); ("e7", "e5")] ("e7", "e5")); reflexivity.
Defined.

(** ** Joining one's own game *)

(** C9. [join-game] does not look at who already holds slot 0: in a
    session whose only player is the requester the join succeeds, the
    requester then holds both slots, and the [playerInfo] entry under its
    identity is the Black one written by the join. *)
Theorem creator_joins_own_game `{engine : RulesEngine}
    now socketId gameId (games : gmap string Game) game :
  games !! gameId = Some game →
  players game = [socketId] →
  ∃ game',
    join_game now socketId gameId games
    = mkReply (<[gameId := game']> games)
        [SocketJoin socketId gameId;
         SocketEmit socketId (GameJoined gameId Black);
         RoomEmit gameId (GameStart (fen (gameState game)) (turn game))] false
    ∧ players game' = [socketId; socketId]
    ∧ playerInfo game' = <[socketId := mkInfo Black true now]> (playerInfo game)
    ∧ playerInfo game' !! socketId = Some (mkInfo Black true now)
    ∧ (∀ info, playerInfo game = {[socketId := info]} →
         playerInfo game' = {[socketId := mkInfo Black true now]}).
Proof.
  intros Hg Hps. unfold join_game. rewrite Hg, Hps. cbn [length Nat.ltb Nat.leb].
  eexists. split; [reflexivity|]. cbn.
  split; [done|]. split; [done|]. split; [by rewrite lookup_insert_eq|].
  intros info ->. by rewrite insert_singleton_eq.
Qed.

Lemma creator_joins_own_game_witness :
  lobby_table !! "g1" = Some lobby_game
  ∧ players lobby_game = ["A"]
  ∧ ∃ game',
      join_game 2 "A" "g1" lobby_table
      = mkReply (<["g1" := game']> lobby_table)
          [SocketJoin "A" "g1"; SocketEmit "A" (GameJoined "g1" Black);
           RoomEmit "g1" (GameStart (fen (gameState lobby_game)) (turn lobby_game))]
          false
      ∧ players game' = ["A"; "A"]
      ∧ playerInfo game' = <["A" := mkInfo Black true 2]> (playerInfo lobby_game)
      ∧ playerInfo game' !! "A" = Some (mkInfo Black true 2)
      ∧ (∀ info, playerInfo lobby_game = {["A" := info]} →
           playerInfo game' = {["A" := mkInfo Black true 2]}).
Proof.
  split; [by vm_compute|]. split; [reflexivity|].
  apply (creator_joins_own_game (engine := sampleEngine) 2 "A" "g1" lobby_table
           lobby_game); [by vm_compute|reflexivity].
Defined.

(** ** Draws and resignations *)

(** C10. [accept-draw] asks for nothing but the session: whoever sends it,
    and the table holding no trace of an offer, the room is told the draw
    is accepted and the session becomes finished with result draw. *)
Theorem accept_draw_needs_only_the_session `{engine : RulesEngine}
    now socketId gameId (games : gmap string Game) game :
  games !! gameId = Some game →
  ∃ game',
    accept_draw now socketId gameId games
    = mkReply (<[gameId := game']> games) [RoomEmit gameId DrawAccepted] false
    ∧ finished game' = true
    ∧ result game' = Some Draw.
Proof.
  intros Hg. unfold accept_draw. rewrite Hg. by eexists.
Qed.

Lemma accept_draw_needs_only_the_session_witness :
  lobby_table !! "g1" = Some lobby_game
  ∧ ("C" ∉ players lobby_game)
  ∧ ∃ game',
      accept_draw 2 "C" "g1" lobby_table
      = mkReply (<["g1" := game']> lobby_table) [RoomEmit "g1" DrawAccepted] false
      ∧ finished game' = true
      ∧ result game' = Some Draw.
Proof.
  split; [by vm_compute|]. split; [apply indexOf_minus_one; reflexivity|].
  apply (accept_draw_needs_only_the_session (engine := sampleEngine) 2 "C" "g1"
           lobby_table lobby_game).
  by vm_compute.
Defined.

(** C2, as the specification words it, fails: in the game of "A" and "B" a
    draw is accepted and then "A" resigns; [result] goes from draw to a win
    for Black. *)
Lemma result_is_overwritten : ¬ spec_result_set_once (engine := sampleEngine).
Proof.
  intros Hspec.
  destruct (Hspec opening_table "g1" opening_game 5 (AcceptDraw "B" "g1")
              6 (ResignGame "A" "g1"))
    as (game1 & game2 & H1 & _ & _ & H2 & Hres); [by vm_compute|done|done|].
  vm_compute in H1. vm_compute in H2.
  inversion H1; subst game1. inversion H2; subst game2.
  discriminate Hres.
Qed.

(** C2, amended. After [accept-draw] or [resign-game] on a session,
    [finished] is true and [result] is set; through any further closing
    events on that session [finished] stays true and [result] stays set,
    holding what the latest of them assigned. *)
Theorem closing_sets_finished_and_latest_result `{engine : RulesEngine}
    now e (later : list (Z * Event)) (games : gmap string Game) gameId game :
  games !! gameId = Some game →
  closes gameId e →
  Forall (λ te, closes gameId te.2) later →
  ∃ game',
    table (run ((now, e) :: later) games) !! gameId = Some game'
    ∧ uncaught (run ((now, e) :: later) games) = false
    ∧ finished game' = true
    ∧ result game' = Some (closing_outcome (players game) (default e (last (later.*2)))).
Proof.
  revert now e games game.
  induction later as [|[now' e'] later IH]; intros now e games game Hg Hc Hall.
  - cbn [run]. rewrite (handle_closing _ _ _ _ _ Hg Hc). cbn.
    eexists. rewrite lookup_insert_eq. done.
  - inversion Hall as [|? ? Hc' Hrest]; subst. cbn in Hc'.
    change (run ((now, e) :: (now', e') :: later) games)
      with (let r := handle now e games in
            if uncaught r then r
            else mkReply (table (run ((now', e') :: later) (table r)))
                   (sent r ++ sent (run ((now', e') :: later) (table r)))
                   (uncaught (run ((now', e') :: later) (table r)))).
    rewrite (handle_closing _ _ _ _ _ Hg Hc). cbn [done_with uncaught table sent].
    cbn zeta. cbn [uncaught table].
    edestruct (IH now' e'
                 (<[gameId := set_finished (closing_outcome (players game) e)
                                (set_lastActivity now game)]> games))
      as (game' & Hg' & Hun & Hfin & Hres); [apply lookup_insert_eq|done|done|].
    exists game'. split; [done|]. split; [done|]. split; [done|].
    rewrite Hres. cbn [players set_finished set_lastActivity].
    change (((now', e') :: later).*2) with (e' :: later.*2).
    by rewrite last_cons_default.
Qed.

Lemma closing_sets_finished_and_latest_result_witness :
  opening_table !! "g1" = Some opening_game
  ∧ ∃ game',
      table (run [(5, AcceptDraw "B" "g1"); (6, ResignGame "A" "g1")] opening_table)
        !! "g1" = Some game'
      ∧ uncaught (run [(5, AcceptDraw "B" "g1"); (6, ResignGame "A" "g1")] opening_table)
        = false
      ∧ finished game' = true
      ∧ result game'
        = Some (closing_outcome (players opening_game)
                  (default (AcceptDraw "B" "g1")
                     (last ([(6, ResignGame "A" "g1")].*2)))).
Proof.
  split; [by vm_compute|].
  apply (closing_sets_finished_and_latest_result (engine := sampleEngine)
           5 (AcceptDraw "B" "g1") [(6, ResignGame "A" "g1")] opening_table "g1"
           opening_game).
  - by vm_compute.
  - reflexivity.
  - repeat constructor.
Defined.

Example draw_then_resign :
  ∃ game',
    table (run [(5, AcceptDraw "B" "g1"); (6, ResignGame "A" "g1")] opening_table)
      !! "g1" = Some game'
    ∧ finished game' = true ∧ result game' = Some (Winner Black).
Proof. eexists. split; [by vm_compute|]. done. Qed.

(** C6, as the specification words it, fails: the creator of a game that
    nobody has joined offers a draw at time 5, and [lastActivity] is still
    the time of creation. *)
Lemma offer_draw_alone_keeps_lastActivity :
  ¬ spec_draw_resign_touch (engine := sampleEngine).
Proof.
  intros [[Hoffer _] _].
  destruct (Hoffer 5 "A" "g1" lobby_table lobby_game) as (game' & Hg' & Hla);
    [by vm_compute|].
  vm_compute in Hg'. inversion Hg'; subst game'. discriminate Hla.
Qed.

(** C6, amended. In an existing session [accept-draw] and [resign-game]
    set [lastActivity] to the current time; [offer-draw] does so when the
    slot opposite the requester is occupied and otherwise does nothing at
    all; for a game id under which no session is stored and which is none
    of the [inherited_names], so that [games[gameId]] is [undefined], each
    of the three does nothing and sends nothing. *)
Theorem draw_resign_lastActivity `{engine : RulesEngine}
    now socketId gameId missingId (games : gmap string Game) game :
  games !! gameId = Some game →
  games !! missingId = None →
  inherited_name missingId = false →
  (∃ game', table (accept_draw now socketId gameId games) !! gameId = Some game'
            ∧ lastActivity game' = now)
  ∧ (∃ game', table (resign_game now socketId gameId games) !! gameId = Some game'
              ∧ lastActivity game' = now)
  ∧ (if (opponentOfIndex (indexOf socketId (players game)) <? length (players game))%nat
     then ∃ game', table (offer_draw now socketId gameId games) !! gameId = Some game'
                   ∧ lastActivity game' = now
     else offer_draw now socketId gameId games = mkReply games [] false)
  ∧ offer_draw now socketId missingId games = mkReply games [] false
  ∧ accept_draw now socketId missingId games = mkReply games [] false
  ∧ resign_game now socketId missingId games = mkReply games [] false.
Proof.
  intros Hg Hmiss _. unfold accept_draw, resign_game, offer_draw. rewrite Hg, Hmiss.
  cbn [table done_with].
  split; [eexists; by rewrite lookup_insert_eq|].
  split; [eexists; by rewrite lookup_insert_eq|].
  split; [|done].
  destruct (_ <? _)%nat; [|done].
  cbn [table done_with]. eexists; by rewrite lookup_insert_eq.
Qed.

Lemma draw_resign_lastActivity_witness :
  opening_table !! "g1" = Some opening_game
  ∧ opening_table !! "zz" = None
  ∧ inherited_name "zz" = false
  ∧ (∃ game', table (accept_draw 7 "B" "g1" opening_table) !! "g1" = Some game'
              ∧ lastActivity game' = 7)
  ∧ (∃ game', table (resign_game 7 "B" "g1" opening_table) !! "g1" = Some game'
              ∧ lastActivity game' = 7)
  ∧ (if (opponentOfIndex (indexOf "B" (players opening_game))
         <? length (players opening_game))%nat
     then ∃ game', table (offer_draw 7 "B" "g1" opening_table) !! "g1" = Some game'
                   ∧ lastActivity game' = 7
     else offer_draw 7 "B" "g1" opening_table = mkReply opening_table [] false)
  ∧ offer_draw 7 "B" "zz" opening_table = mkReply opening_table [] false
  ∧ accept_draw 7 "B" "zz" opening_table = mkReply opening_table [] false
  ∧ resign_game 7 "B" "zz" opening_table = mkReply opening_table [] false.
Proof.
  split; [by vm_compute|]. split; [by vm_compute|]. split; [by vm_compute|].
  apply (draw_resign_lastActivity (engine := sampleEngine) 7 "B" "g1" "zz"
           opening_table opening_game); by vm_compute.
Defined.

Example offer_draw_alone :
  offer_draw 5 "A" "g1" lobby_table = mkReply lobby_table [] false.
Proof. by vm_compute. Qed.

(** * Further properties of the handlers *)

(** ** One event, one session *)

Section Steps.

Context `{engine : RulesEngine}.

Implicit Types (games : gmap string Game) (game : Game).

Lemma indexOf_found id l : indexOf id l ≠ -1 → id ∈ l.
Proof.
  intros Hidx. destruct (decide (id ∈ l)) as [Hin|Hnot]; [done|].
  by apply indexOf_notin in Hnot.
Qed.

Lemma handle_frame now e games g other :
  target e = Some g → other ≠ g →
  table (handle now e games) !! other = games !! other.
Proof.
  intros Ht Hne.
  destruct e; cbn in Ht; try discriminate; injection Ht as ->; cbn [handle];
    unfold sync_game_state, create_game, join_game, make_move, heartbeat,
      reconnect_to_game, offer_draw, accept_draw, resign_game;
    repeat case_match; cbn [table done_with];
    rewrite ?lookup_insert_ne by done; done.
Qed.

Local Ltac settle Hg Hg' :=
  cbn [table done_with] in Hg';
  first
    [ rewrite lookup_insert_eq in Hg'; injection Hg' as <-
    | rewrite Hg in Hg'; first [discriminate | injection Hg' as <-] ].

Lemma handle_evolves now e games gameId game' :
  table (handle now e games) !! gameId = Some game' →
  match games !! gameId with
  | Some game => evolves now gameId game e game'
  | None => ∃ s, e = CreateGame s gameId ∧ game' = new_game now s
  end.
Proof.
  intros Hg'. destruct (target e) as [g|] eqn:Ht.
  - destruct (decide (gameId = g)) as [->|Hne].
    + destruct (games !! g) as [game|] eqn:Hg;
        destruct e; cbn in Ht; try discriminate; injection Ht as ->;
        cbn [handle] in Hg'.
      * unfold sync_game_state in Hg'. rewrite Hg in Hg'. settle Hg Hg'. constructor.
      * unfold create_game in Hg'. settle Hg Hg'. apply evolves_create.
      * unfold join_game in Hg'. rewrite Hg in Hg'.
        destruct (length (players game) <? 2)%nat eqn:Hlt; settle Hg Hg'.
        -- apply evolves_join. by apply Nat.ltb_lt.
        -- constructor.
      * unfold make_move in Hg'. rewrite Hg in Hg'.
        destruct (decide (turn game ≠ colorOfIndex (indexOf socketId (players game))))
          as [Hturn|Hturn]; [settle Hg Hg'; constructor|].
        apply dec_stable in Hturn.
        destruct (move (gameState game) from to) as [next mv| |msg] eqn:Hmv;
          settle Hg Hg'; [|constructor..].
        by eapply evolves_move.
      * unfold heartbeat in Hg'. rewrite Hg in Hg'.
        destruct (playerInfo game !! socketId) as [info|] eqn:Hinfo; settle Hg Hg'.
        -- by apply evolves_heartbeat.
        -- constructor.
      * unfold reconnect_to_game in Hg'. rewrite Hg in Hg'.
        destruct (decide (indexOf previousId (players game) ≠ -1)) as [Hidx|Hidx];
          [|settle Hg Hg'; constructor].
        apply indexOf_found in Hidx.
        destruct (playerInfo game !! previousId) as [info|] eqn:Hinfo; settle Hg Hg'.
        -- by apply evolves_reconnect.
        -- by apply evolves_reconnect_throw.
      * unfold offer_draw in Hg'. rewrite Hg in Hg'.
        destruct (_ <? _)%nat; settle Hg Hg'; constructor.
      * unfold accept_draw in Hg'. rewrite Hg in Hg'. settle Hg Hg'. constructor.
      * unfold resign_game in Hg'. rewrite Hg in Hg'. settle Hg Hg'. constructor.
      * unfold sync_game_state in Hg'. rewrite Hg in Hg'. settle Hg Hg'.
      * unfold create_game in Hg'. settle Hg Hg'. by eexists.
      * unfold join_game in Hg'. rewrite Hg in Hg'. settle Hg Hg'.
      * unfold make_move in Hg'. rewrite Hg in Hg'. settle Hg Hg'.
      * unfold heartbeat in Hg'. rewrite Hg in Hg'. settle Hg Hg'.
      * unfold reconnect_to_game in Hg'. rewrite Hg in Hg'. settle Hg Hg'.
      * unfold offer_draw in Hg'. rewrite Hg in Hg'. settle Hg Hg'.
      * unfold accept_draw in Hg'. rewrite Hg in Hg'. settle Hg Hg'.
      * unfold resign_game in Hg'. rewrite Hg in Hg'. settle Hg Hg'.
    + rewrite (handle_frame _ _ _ _ _ Ht Hne) in Hg'. rewrite Hg'. constructor.
  - destruct e; cbn in Ht; try discriminate; cbn [handle table done_with] in Hg'.
    + unfold disconnect in Hg'. cbn [table done_with] in Hg'.
      rewrite lookup_fmap in Hg'.
      destruct (games !! gameId) as [game|] eqn:Hg; [|done].
      cbn in Hg'. injection Hg' as <-. unfold disconnect_game.
      destruct (decide (indexOf socketId (players game) ≠ -1)) as [Hidx|Hidx];
        [|constructor].
      apply indexOf_found in Hidx.
      destruct (playerInfo game !! socketId) as [info|] eqn:Hinfo; [|constructor].
      by apply evolves_disconnect.
    + apply cleanup_lookup_Some in Hg'. rewrite Hg'. constructor.
Qed.

End Steps.

Section StepFacts.

Context `{engine : RulesEngine}.

Implicit Types (games : gmap string Game) (game : Game).

Lemma make_move_applied now socketId gameId from to games game next mv :
  games !! gameId = Some game →
  turn game = colorOfIndex (indexOf socketId (players game)) →
  move (gameState game) from to = Moved next mv →
  make_move now socketId gameId from to games
  = done_with
      (<[gameId := set_lastActivity now (set_position_turn next (flip (turn game)) game)]>
         games)
      (RoomEmit gameId
         (MoveMade from to
            (snapshot (set_lastActivity now (set_position_turn next (flip (turn game)) game)))
            mv)
       :: your_turn_notice
            (set_lastActivity now (set_position_turn next (flip (turn game)) game))).
Proof.
  intros Hg Hturn Hmv. unfold make_move. rewrite Hg, Hmv.
  by case_decide.
Qed.

Lemma make_move_applied_accepted now socketId gameId from to games game next mv :
  games !! gameId = Some game →
  turn game = colorOfIndex (indexOf socketId (players game)) →
  move (gameState game) from to = Moved next mv →
  move_accepted gameId (make_move now socketId gameId from to games).
Proof.
  intros Hg Hturn Hmv. rewrite (make_move_applied _ _ _ _ _ _ _ _ _ Hg Hturn Hmv).
  do 4 eexists. cbn [sent done_with]. apply list_elem_of_here.
Qed.

Lemma dom_insert_present games gameId game game' :
  games !! gameId = Some game → dom (<[gameId := game']> games) = dom games.
Proof. intros Hg. apply dom_insert_lookup_L. by rewrite Hg. Qed.

Lemma cleanup_subseteq now games : cleanup now games ⊆ games.
Proof.
  apply map_subseteq_spec. intros k game. apply cleanup_lookup_Some.
Qed.

End StepFacts.

(** ** The cleanup timer *)

(** X1. The loop of the cleanup timer, which deletes while it walks the
    keys, leaves exactly the sessions whose [lastActivity] is at most 24
    hours old, each as it was. *)
Theorem cleanup_is_filter `{engine : RulesEngine} now (games : gmap string Game) :
  cleanup now games
  = filter (λ kv, now - lastActivity kv.2 ≤ 24 * 60 * 60 * 1000) games.
Proof.
  change (24 * 60 * 60 * 1000) with RETENTION_MS.
  apply map_eq. intros k. rewrite cleanup_lookup.
  apply option_eq. intros g. rewrite map_lookup_filter_Some. cbn [snd].
  destruct (games !! k) as [game|]; [|split; [done|by intros [? _]]].
  case_decide as Hexp; split.
  - done.
  - intros [[= ->] Hle]. exfalso. lia.
  - intros [= ->]. split; [done|lia].
  - by intros [[= ->] _].
Qed.

(** X2. A sweep only removes: what it keeps is unchanged. Two sweeps in a
    row amount to one sweep at the later of the two times; in particular a
    second sweep at the same time removes nothing more. *)
Theorem cleanup_twice `{engine : RulesEngine} t1 t2 (games : gmap string Game) :
  cleanup t1 games ⊆ games
  ∧ cleanup t2 (cleanup t1 games) = cleanup (Z.max t1 t2) games
  ∧ cleanup t1 (cleanup t1 games) = cleanup t1 games.
Proof.
  assert (∀ a b, cleanup b (cleanup a games) = cleanup (Z.max a b) games) as Hmax.
  { intros a b. apply map_eq. intros k. rewrite !cleanup_lookup.
    destruct (games !! k) as [game|]; [|done].
    repeat case_decide; first [done | exfalso; lia]. }
  split; [apply cleanup_subseteq|]. split; [apply Hmax|].
  by rewrite Hmax, Z.max_id.
Qed.

(** ** Which sessions an event can reach *)

(** X3. Only [create-game] adds an entry to the table, and only under the
    id it drew; only the cleanup timer removes entries; every other event
    leaves the set of game ids as it was. *)
Theorem table_keys_after `{engine : RulesEngine} now e (games : gmap string Game) :
  match e with
  | CreateGame _ g => dom (table (handle now e games)) = {[g]} ∪ dom games
  | CleanupTick => dom (table (handle now e games)) ⊆ dom games
  | _ => dom (table (handle now e games)) = dom games
  end.
Proof.
  destruct e; cbn [handle];
    unfold sync_game_state, create_game, join_game, make_move, heartbeat,
      reconnect_to_game, offer_draw, accept_draw, resign_game, disconnect;
    cbn [table done_with].
  - destruct (games !! gameId) eqn:Hg; cbn; [by eapply dom_insert_present|done].
  - apply dom_insert_L.
  - destruct (games !! gameId) eqn:Hg; [|done].
    destruct (_ <? _)%nat; cbn; [by eapply dom_insert_present|done].
  - destruct (games !! gameId) as [game|] eqn:Hg; [|done].
    case_decide; [done|].
    destruct (move _ _ _); cbn; [by eapply dom_insert_present|done..].
  - destruct (games !! gameId) as [game|] eqn:Hg; [|done].
    destruct (playerInfo game !! socketId); cbn; [by eapply dom_insert_present|done].
  - destruct (games !! gameId) as [game|] eqn:Hg; [|done].
    case_decide; [|done].
    destruct (playerInfo game !! previousId); cbn; by eapply dom_insert_present.
  - destruct (games !! gameId) as [game|] eqn:Hg; [|done].
    destruct (_ <? _)%nat; cbn; [by eapply dom_insert_present|done].
  - destruct (games !! gameId) eqn:Hg; cbn; [by eapply dom_insert_present|done].
  - destruct (games !! gameId) eqn:Hg; cbn; [by eapply dom_insert_present|done].
  - apply dom_fmap_L.
  - apply subseteq_dom, cleanup_subseteq.
Qed.



(** ** What stays as it is *)

Section Invariants.

Context `{engine : RulesEngine}.

Implicit Types (games : gmap string Game) (game : Game).

Lemma handle_lookup_back now e games gameId game' :
  ¬ creates gameId e →
  table (handle now e games) !! gameId = Some game' →
  ∃ game, games !! gameId = Some game ∧ evolves now gameId game e game'.
Proof.
  intros Hnc Hg'. apply handle_evolves in Hg'.
  destruct (games !! gameId) as [game|]; [by exists game|].
  destruct Hg' as (s & -> & _). by destruct Hnc.
Qed.

Lemma run_lookup_back evs games gameId game' :
  Forall (λ te, ¬ creates gameId te.2) evs →
  table (run evs games) !! gameId = Some game' →
  is_Some (games !! gameId).
Proof.
  revert games. induction evs as [|[now e] evs IH]; intros games Hall Hg'.
  - cbn in Hg'. by rewrite Hg'.
  - inversion Hall as [|? ? Hnc Hrest]; subst. cbn in Hnc. cbn [run] in Hg'.
    destruct (uncaught (handle now e games)).
    + destruct (handle_lookup_back _ _ _ _ _ Hnc Hg') as (game & -> & _). by eexists.
    + cbn [table] in Hg'. destruct (IH _ Hrest Hg') as [game1 Hg1].
      destruct (handle_lookup_back _ _ _ _ _ Hnc Hg1) as (game & -> & _). by eexists.
Qed.

(** A property of one session that no event but a colliding [create-game]
    can break holds for as long as the session is in the table. *)
Lemma run_keeps (P : Game → Prop) gameId :
  (∀ now e game game',
     ¬ creates gameId e → evolves now gameId game e game' → P game → P game') →
  ∀ evs games game game',
    games !! gameId = Some game → P game →
    Forall (λ te, ¬ creates gameId te.2) evs →
    table (run evs games) !! gameId = Some game' →
    P game'.
Proof.
  intros Hstep evs. induction evs as [|[now e] evs IH];
    intros games game game' Hg HP Hall Hg'.
  - cbn in Hg'. rewrite Hg in Hg'. by injection Hg' as <-.
  - inversion Hall as [|? ? Hnc Hrest]; subst. cbn in Hnc. cbn [run] in Hg'.
    destruct (uncaught (handle now e games)).
    + destruct (handle_lookup_back _ _ _ _ _ Hnc Hg') as (game0 & Hg0 & Hev).
      rewrite Hg in Hg0. injection Hg0 as <-. by eapply Hstep.
    + cbn [table] in Hg'. destruct (run_lookup_back _ _ _ _ Hrest Hg') as [game1 Hg1].
      destruct (handle_lookup_back _ _ _ _ _ Hnc Hg1) as (game0 & Hg0 & Hev).
      rewrite Hg in Hg0. injection Hg0 as <-.
      eapply (IH _ game1); eauto.
Qed.

(** A property of sessions that [create-game] establishes and every event
    keeps holds throughout the table after any run. *)
Lemma run_everywhere (P : Game → Prop) :
  (∀ now s, P (new_game now s)) →
  (∀ now gameId e game game', evolves now gameId game e game' → P game → P game') →
  ∀ evs games,
    (∀ gameId game, games !! gameId = Some game → P game) →
    ∀ gameId game, table (run evs games) !! gameId = Some game → P game.
Proof.
  intros Hnew Hstep.
  assert (∀ now e games,
            (∀ gameId game, games !! gameId = Some game → P game) →
            ∀ gameId game, table (handle now e games) !! gameId = Some game → P game)
    as Hone.
  { intros now e games Hall gameId game' Hg'. apply handle_evolves in Hg'.
    destruct (games !! gameId) as [game|] eqn:Hg.
    - eapply Hstep; eauto.
    - destruct Hg' as (s & _ & ->). apply Hnew. }
  intros evs. induction evs as [|[now e] evs IH]; intros games Hall; cbn [run].
  - exact Hall.
  - destruct (uncaught (handle now e games)); [by apply Hone|].
    cbn [table]. apply IH. by apply Hone.
Qed.

Lemma elem_of_insert_kept (l : list string) i p s k :
  l !! i = Some p → k ∈ l → k ≠ p → k ∈ <[i := s]> l.
Proof.
  intros Hi Hk Hne. apply list_elem_of_lookup in Hk as [j Hj].
  apply list_elem_of_lookup. exists j.
  rewrite list_lookup_insert_ne; [done|]. intros ->. congruence.
Qed.

Lemma elem_of_insert_new (l : list string) i p s :
  l !! i = Some p → s ∈ <[i := s]> l.
Proof.
  intros Hi. apply list_elem_of_lookup. exists i.
  apply list_lookup_insert_eq. by eapply lookup_lt_Some.
Qed.

Lemma evolves_info_keys now gameId e game game' :
  evolves now gameId game e game' →
  (∀ id, is_Some (playerInfo game !! id) → id ∈ players game) →
  ∀ id, is_Some (playerInfo game' !! id) → id ∈ players game'.
Proof.
  intros Hev Hinv id.
  destruct Hev as [e|s|s|s Hlt|s from to next mv Hturn Hmv|s info Hinfo
                   |s p info Hp Hinfo|s p Hp Hinfo|s|s|s|s info Hs Hinfo];
    cbn; try apply Hinv.
  - intros [x Hx]. destruct (decide (s = id)) as [->|Hne]; [apply list_elem_of_here|].
    rewrite lookup_singleton_ne in Hx by done. done.
  - intros Hid. apply elem_of_app. destruct (decide (s = id)) as [->|Hne].
    + right. apply list_elem_of_here.
    + left. apply Hinv. by rewrite lookup_insert_ne in Hid.
  - intros Hid. destruct (decide (s = id)) as [->|Hne].
    + apply Hinv. by eexists.
    + apply Hinv. by rewrite lookup_insert_ne in Hid.
  - pose proof (indexOf_lookup _ _ Hp) as Hslot.
    intros Hid. destruct (decide (p = id)) as [->|Hnp].
    { rewrite lookup_delete_eq in Hid. by destruct Hid. }
    rewrite lookup_delete_ne in Hid by done.
    destruct (decide (s = id)) as [->|Hns]; [by eapply elem_of_insert_new|].
    rewrite lookup_insert_ne in Hid by done.
    eapply elem_of_insert_kept; eauto.
  - pose proof (indexOf_lookup _ _ Hp) as Hslot.
    intros Hid. destruct (decide (s = id)) as [->|Hns].
    { rewrite lookup_delete_eq in Hid. by destruct Hid. }
    rewrite lookup_delete_ne in Hid by done.
    eapply elem_of_insert_kept; eauto.
    intros ->. rewrite Hinfo in Hid. by destruct Hid.
  - intros Hid. destruct (decide (s = id)) as [->|Hne]; [done|].
    apply Hinv. by rewrite lookup_insert_ne in Hid.
Qed.

Lemma evolves_nonempty now gameId e game game' :
  evolves now gameId game e game' → players game ≠ [] → players game' ≠ [].
Proof.
  intros Hev Hne.
  destruct Hev; cbn; try done.
  - by destruct (players game).
  - intros Heq. apply (f_equal length) in Heq. rewrite length_insert in Heq.
    by destruct (players game).
  - intros Heq. apply (f_equal length) in Heq. rewrite length_insert in Heq.
    by destruct (players game).
Qed.

Lemma run_info_keys evs games :
  info_keys_hold_slots games → info_keys_hold_slots (table (run evs games)).
Proof.
  intros Hinv gameId game id Hg.
  revert id. revert gameId game Hg.
  apply (run_everywhere (λ game, ∀ id, is_Some (playerInfo game !! id) → id ∈ players game)).
  - intros now s id [x Hx]. cbn in *.
    destruct (decide (s = id)) as [->|Hne]; [apply list_elem_of_here|].
    by rewrite lookup_singleton_ne in Hx.
  - intros now gameId e game game'. apply evolves_info_keys.
  - intros gameId game Hg id. by apply (Hinv gameId).
Qed.

Lemma info_keys_hold_slots_empty : info_keys_hold_slots ∅.
Proof. intros gameId game id Hg. by rewrite lookup_empty in Hg. Qed.

End Invariants.

(** X5. Whatever the event, the turn and the position of a session change
    only together and only in two ways: a move of the side to move that the
    engine applies passes the turn to the other colour, and a [create-game]
    that draws the id of the session starts it afresh. *)
Theorem turn_and_position_change_only_by_move `{engine : RulesEngine}
    now e (games : gmap string Game) gameId game game' :
  games !! gameId = Some game →
  table (handle now e games) !! gameId = Some game' →
  (turn game' = turn game ∧ gameState game' = gameState game)
  ∨ (∃ s from to next mv,
       e = MakeMove s gameId from to
       ∧ turn game = colorOfIndex (indexOf s (players game))
       ∧ move (gameState game) from to = Moved next mv
       ∧ move_accepted gameId (handle now e games)
       ∧ gameState game' = next ∧ turn game' = flip (turn game))
  ∨ (∃ s, e = CreateGame s gameId ∧ turn game' = White ∧ gameState game' = newChess).
Proof.
  intros Hg Hg'. apply handle_evolves in Hg'. rewrite Hg in Hg'.
  destruct Hg' as [e|s|s|s Hlt|s from to next mv Hturn Hmv|s info Hinfo
                   |s p info Hp Hinfo|s p Hp Hinfo|s|s|s|s info Hs Hinfo];
    try (left; done).
  - right. right. by exists s.
  - right. left. exists s, from, to, next, mv.
    split; [done|]. split; [done|]. split; [done|]. split; [|done].
    by eapply make_move_applied_accepted.
Qed.

Lemma turn_and_position_change_only_by_move_witness :
  (turn answered_game = turn opening_game
   ∧ gameState answered_game = gameState opening_game)
  ∨ (∃ s from to next mv,
       MakeMove "B" "g1" "e7" "e5" = MakeMove s "g1" from to
       ∧ turn opening_game = colorOfIndex (indexOf s (players opening_game))
       ∧ move (gameState opening_game) from to = Moved next mv
       ∧ move_accepted "g1" (handle 4 (MakeMove "B" "g1" "e7" "e5") opening_table)
       ∧ gameState answered_game = next
       ∧ turn answered_game = flip (turn opening_game))
  ∨ (∃ s, MakeMove "B" "g1" "e7" "e5" = CreateGame s "g1"
          ∧ turn answered_game = White ∧ gameState answered_game = newChess).
Proof.
  apply (turn_and_position_change_only_by_move (engine := sampleEngine)
           4 (MakeMove "B" "g1" "e7" "e5") opening_table "g1" opening_game
           answered_game);
    by vm_compute.
Defined.

(** X6. No handler clears [finished] or [result]: a session that is
    finished stays finished, with a result if it had one, through any run
    of events for as long as it is in the table and no [create-game] draws
    its id again. *)
Theorem finished_is_never_reset `{engine : RulesEngine}
    evs (games : gmap string Game) gameId game game' :
  games !! gameId = Some game →
  finished game = true →
  Forall (λ te, ¬ creates gameId te.2) evs →
  table (run evs games) !! gameId = Some game' →
  finished game' = true ∧ (is_Some (result game) → is_Some (result game')).
Proof.
  intros Hg Hfin Hall Hg'.
  apply (run_keeps
           (λ g, finished g = true ∧ (is_Some (result game) → is_Some (result g)))
           gameId) with (evs := evs) (games := games) (game := game); try done.
  clear. intros now e g g' Hnc Hev [Hfin Hres].
  destruct Hev; by cbn.
Qed.

Lemma finished_is_never_reset_witness :
  finished evening_game = true
  ∧ (is_Some (result drawn_game) → is_Some (result evening_game)).
Proof.
  apply (finished_is_never_reset (engine := sampleEngine) afternoon_events
           drawn_table "g1" drawn_game evening_game).
  - by vm_compute.
  - reflexivity.
  - repeat constructor; cbn; try tauto; discriminate.
  - by vm_compute.
Defined.

(** X7. The slots of a session change in three ways only: [join-game]
    appends the requester to a list shorter than two, [reconnect-to-game]
    puts the requester in the first slot held by the previous identity, and
    a [create-game] drawing the same id starts over with the creator alone.
    No event removes a player. *)
Theorem players_change_only_by_join_and_reconnect `{engine : RulesEngine}
    now e (games : gmap string Game) gameId game game' :
  games !! gameId = Some game →
  table (handle now e games) !! gameId = Some game' →
  players game' = players game
  ∨ (∃ s, e = JoinGame s gameId ∧ (length (players game) < 2)%nat
          ∧ players game' = players game ++ [s])
  ∨ (∃ s p, e = ReconnectToGame s gameId p ∧ p ∈ players game
            ∧ players game' = <[Z.to_nat (indexOf p (players game)) := s]> (players game)
            ∧ length (players game') = length (players game))
  ∨ (∃ s, e = CreateGame s gameId ∧ players game' = [s]).
Proof.
  intros Hg Hg'. apply handle_evolves in Hg'. rewrite Hg in Hg'.
  destruct Hg' as [e|s|s|s Hlt|s from to next mv Hturn Hmv|s info Hinfo
                   |s p info Hp Hinfo|s p Hp Hinfo|s|s|s|s info Hs Hinfo];
    try (left; done).
  - do 3 right. by exists s.
  - right. left. by exists s.
  - right. right. left. exists s, p. cbn. by rewrite length_insert.
  - right. right. left. exists s, p. cbn. by rewrite length_insert.
Qed.

Lemma players_change_only_by_join_and_reconnect_witness :
  players handover_game = players opening_game
  ∨ (∃ s, ReconnectToGame "C" "g1" "B" = JoinGame s "g1"
          ∧ (length (players opening_game) < 2)%nat
          ∧ players handover_game = players opening_game ++ [s])
  ∨ (∃ s p, ReconnectToGame "C" "g1" "B" = ReconnectToGame s "g1" p
            ∧ p ∈ players opening_game
            ∧ players handover_game
              = <[Z.to_nat (indexOf p (players opening_game)) := s]> (players opening_game)
            ∧ length (players handover_game) = length (players opening_game))
  ∨ (∃ s, ReconnectToGame "C" "g1" "B" = CreateGame s "g1"
          ∧ players handover_game = [s]).
Proof.
  apply (players_change_only_by_join_and_reconnect (engine := sampleEngine)
           8 (ReconnectToGame "C" "g1" "B") opening_table "g1" opening_game
           handover_game);
    by vm_compute.
Defined.

(** X8. Slot 0 is never vacated: if every session of the table has a
    player, so has every session after any run of events, including the
    sessions created on the way. *)
Theorem slot_zero_is_never_vacated `{engine : RulesEngine}
    evs (games : gmap string Game) :
  players_nonempty games → players_nonempty (table (run evs games)).
Proof.
  intros Hinv. unfold players_nonempty.
  apply (run_everywhere (λ game, players game ≠ [])); [done| |done].
  intros now gameId e game game'. apply evolves_nonempty.
Qed.

Lemma slot_zero_is_never_vacated_witness :
  players_nonempty (table (run (engine := sampleEngine) crowded_events ∅)).
Proof.
  apply (slot_zero_is_never_vacated (engine := sampleEngine) crowded_events ∅).
  intros gameId game Hg. by rewrite lookup_empty in Hg.
Defined.

(** X9. The keys of [playerInfo] are identities that hold a slot: if this
    is so in every session of the table, it is so after any run of events.
    (It is so in the empty table the server starts with.) *)
Theorem info_only_for_slot_holders `{engine : RulesEngine}
    evs (games : gmap string Game) :
  info_keys_hold_slots games → info_keys_hold_slots (table (run evs games)).
Proof. apply run_info_keys. Qed.

Lemma info_only_for_slot_holders_witness :
  info_keys_hold_slots (table (run (engine := sampleEngine) crowded_events ∅)).
Proof.
  apply (info_only_for_slot_holders (engine := sampleEngine) crowded_events ∅).
  intros gameId game id Hg. by rewrite lookup_empty in Hg.
Defined.

(** X10. [heartbeat] tests for a [playerInfo] entry, not for a slot; in a
    table where the entries belong to slot holders, the heartbeat of a
    socket that holds no slot in the game changes nothing and sends
    nothing. *)
Theorem heartbeat_from_outsider_is_ignored `{engine : RulesEngine}
    now socketId gameId (games : gmap string Game) game :
  info_keys_hold_slots games →
  games !! gameId = Some game →
  socketId ∉ players game →
  heartbeat now socketId gameId games = mkReply games [] false.
Proof.
  intros Hinv Hg Hnot. unfold heartbeat. rewrite Hg.
  destruct (playerInfo game !! socketId) as [info|] eqn:Hinfo; [|done].
  destruct Hnot. apply (Hinv gameId game); [done|by eexists].
Qed.

Lemma heartbeat_from_outsider_is_ignored_witness :
  heartbeat 6 "C" "g1" opening_table = mkReply opening_table [] false.
Proof.
  apply (heartbeat_from_outsider_is_ignored (engine := sampleEngine) 6 "C" "g1"
           opening_table opening_game).
  - apply (run_info_keys opening_events ∅), info_keys_hold_slots_empty.
  - by vm_compute.
  - apply indexOf_minus_one. reflexivity.
Defined.



(** X12. [heartbeat], [reconnect-to-game] and [disconnect] do not touch
    [lastActivity]: a session whose last activity is more than 24 hours
    before a sweep is removed by that sweep even if such an event was
    handled in between. *)
Theorem liveness_signals_do_not_postpone_cleanup `{engine : RulesEngine}
    now later e (games : gmap string Game) gameId game :
  liveness_signal e →
  games !! gameId = Some game →
  later - lastActivity game > 24 * 60 * 60 * 1000 →
  (∀ game', table (handle now e games) !! gameId = Some game' →
            lastActivity game' = lastActivity game)
  ∧ cleanup later (table (handle now e games)) !! gameId = None.
Proof.
  intros Hsig Hg Hexp. change (24 * 60 * 60 * 1000) with RETENTION_MS in Hexp.
  assert (∀ game', table (handle now e games) !! gameId = Some game' →
                   lastActivity game' = lastActivity game) as Hsame.
  { intros game' Hg'. apply handle_evolves in Hg'. rewrite Hg in Hg'.
    destruct Hg'; cbn in Hsig; done. }
  split; [done|]. rewrite cleanup_lookup.
  destruct (table (handle now e games) !! gameId) as [game'|] eqn:Hg'; [|done].
  rewrite (Hsame game' eq_refl). by rewrite decide_True.
Qed.

Lemma liveness_signals_do_not_postpone_cleanup_witness :
  (∀ game', table (handle 86400000 (Heartbeat "B" "g1") opening_table) !! "g1" = Some game' →
            lastActivity game' = lastActivity opening_game)
  ∧ cleanup 86400004 (table (handle 86400000 (Heartbeat "B" "g1") opening_table)) !! "g1"
    = None.
Proof.
  apply (liveness_signals_do_not_postpone_cleanup (engine := sampleEngine)
           86400000 86400004 (Heartbeat "B" "g1") opening_table "g1" opening_game).
  - exact I.
  - by vm_compute.
  - by vm_compute.
Defined.

(** ** Moves *)

Section MoveFacts.

Context `{engine : RulesEngine}.

Lemma your_turn_notice_only_your_turn (game : Game) eff :
  eff ∈ your_turn_notice game →
  ∃ id info, eff = RoomEmit id YourTurn
             ∧ players game !! (match turn game with White => 0 | Black => 1 end)%nat
               = Some id
             ∧ playerInfo game !! id = Some info ∧ connected info = true.
Proof.
  unfold your_turn_notice.
  destruct (players game !! _) as [id|] eqn:Hid; [|by intros ?%elem_of_nil].
  destruct id as [|a id']; [by intros ?%elem_of_nil|].
  destruct (playerInfo game !! _) as [info|] eqn:Hinfo; [|by intros ?%elem_of_nil].
  destruct (connected info) eqn:Hc; [|by intros ?%elem_of_nil].
  intros ->%list_elem_of_singleton. by exists (String a id'), info.
Qed.

Lemma reconnect_throws now socketId gameId previousId
    (games : gmap string Game) game :
  games !! gameId = Some game →
  previousId ∈ players game →
  playerInfo game !! previousId = None →
  reconnect_to_game now socketId gameId previousId games
  = mkReply
      (<[gameId := set_playerInfo (delete socketId (playerInfo game))
                     (set_players
                        (<[Z.to_nat (indexOf previousId (players game)) := socketId]>
                           (players game)) game)]> games)
      [] true.
Proof.
  intros Hg Hin Hinfo. unfold reconnect_to_game. rewrite Hg, Hinfo.
  case_decide as Hidx; [done|].
  apply indexOf_minus_one in Hidx. done.
Qed.

End MoveFacts.

(** X13. Unless the move is accepted, [make-move] leaves the table as it
    was and sends either nothing or one error, on the requester's socket. *)
Theorem make_move_rejected_changes_nothing `{engine : RulesEngine}
    now socketId gameId from to (games : gmap string Game) :
  move_accepted gameId (make_move now socketId gameId from to games)
  ∨ (table (make_move now socketId gameId from to games) = games
     ∧ (sent (make_move now socketId gameId from to games) = []
        ∨ ∃ message,
            sent (make_move now socketId gameId from to games)
            = [SocketEmit socketId (ErrorMsg message)])).
Proof.
  unfold make_move.
  destruct (games !! gameId) as [game|] eqn:Hg; [|right; by auto].
  case_decide as Hturn; [right; split; [done|right; by eexists]|].
  destruct (move (gameState game) from to) as [next mv| |message] eqn:Hmv.
  - left. do 4 eexists. cbn [sent done_with]. apply list_elem_of_here.
  - right. by auto.
  - right. split; [done|]. right. by eexists.
Qed.

(** X14. The state a [move-made] broadcast carries is the state the server
    has stored: the squares are those of the request, and position, turn
    and flags are read off the session as the handler leaves it. *)
Theorem move_made_carries_stored_state `{engine : RulesEngine}
    now socketId gameId from to (games : gmap string Game) room f t s mv :
  RoomEmit room (MoveMade f t s mv) ∈ sent (make_move now socketId gameId from to games) →
  room = gameId ∧ f = from ∧ t = to
  ∧ ∃ game', table (make_move now socketId gameId from to games) !! gameId = Some game'
             ∧ s = snapshot game' ∧ lastActivity game' = now.
Proof.
  unfold make_move.
  destruct (games !! gameId) as [game|] eqn:Hg; [|by intros ?%elem_of_nil].
  case_decide as Hturn; [by intros [=]%list_elem_of_singleton|].
  destruct (move (gameState game) from to) as [next m| |message] eqn:Hmv;
    [|by intros ?%elem_of_nil|by intros [=]%list_elem_of_singleton].
  cbn [sent table done_with]. intros [Heq|Hin]%elem_of_cons.
  - injection Heq as -> -> -> -> ->. do 3 (split; [done|]).
    eexists. rewrite lookup_insert_eq. done.
  - apply your_turn_notice_only_your_turn in Hin as (id & info & [=] & _).
Qed.

Lemma move_made_carries_stored_state_witness :
  "g1" = "g1" ∧ "e7" = "e7" ∧ "e5" = "e5"
  ∧ ∃ game', table (make_move 4 "B" "g1" "e7" "e5" opening_table) !! "g1" = Some game'
             ∧ mkSnapshot "e2e4e7e5" White false false false
               = snapshot game'
             ∧ lastActivity game' = 4.
Proof.
  apply (move_made_carries_stored_state (engine := sampleEngine) 4 "B" "g1" "e7" "e5"
           opening_table "g1" "e7" "e5"
           (mkSnapshot "e2e4e7e5" White false false false)
           ("e7", "e5")).
  vm_compute. apply list_elem_of_here.
Defined.

(** ** Synchronisation *)

(** X15. [sync-game-state] answers any socket with the stored state,
    changes nothing but [lastActivity], and thereby keeps the session out
    of reach of the cleanup timer for the next 24 hours. *)
Theorem sync_keeps_session_alive `{engine : RulesEngine}
    now later socketId gameId (games : gmap string Game) game :
  games !! gameId = Some game →
  later - now ≤ 24 * 60 * 60 * 1000 →
  sync_game_state now socketId gameId games
  = mkReply (<[gameId := set_lastActivity now game]> games)
      [SocketEmit socketId (GameStateSynced (snapshot game))] false
  ∧ cleanup later (table (sync_game_state now socketId gameId games)) !! gameId
    = Some (set_lastActivity now game).
Proof.
  intros Hg Hle. change (24 * 60 * 60 * 1000) with RETENTION_MS in Hle.
  unfold sync_game_state. rewrite Hg. split; [done|].
  cbn [table done_with]. rewrite cleanup_lookup, lookup_insert_eq. cbn.
  case_decide; [exfalso; lia|done].
Qed.

Lemma sync_keeps_session_alive_witness :
  sync_game_state 86400000 "Z" "g1" opening_table
  = mkReply (<["g1" := set_lastActivity 86400000 opening_game]> opening_table)
      [SocketEmit "Z" (GameStateSynced (snapshot opening_game))] false
  ∧ cleanup 172800000 (table (sync_game_state 86400000 "Z" "g1" opening_table)) !! "g1"
    = Some (set_lastActivity 86400000 opening_game).
Proof.
  apply (sync_keeps_session_alive (engine := sampleEngine) 86400000 172800000 "Z" "g1"
           opening_table opening_game); by vm_compute.
Defined.

(** ** Reconnection, continued *)

(** X16. A successful [reconnect-to-game] hands the first slot of the
    previous identity to the requester and leaves the other slots alone;
    the requester is told the colour of that slot and the stored state; the
    [playerInfo] entry moves from the previous identity to the requester,
    marked connected, and is lost when the two identities are the same;
    position, turn, [lastActivity], [finished] and [result] are as before. *)
Theorem reconnect_takes_over_slot `{engine : RulesEngine}
    now socketId gameId previousId (games : gmap string Game) game info :
  games !! gameId = Some game →
  previousId ∈ players game →
  playerInfo game !! previousId = Some info →
  ∃ game',
    reconnect_to_game now socketId gameId previousId games
    = mkReply (<[gameId := game']> games)
        ([SocketJoin socketId gameId;
          SocketEmit socketId
            (ReconnectedToGame gameId (colorOfIndex (indexOf previousId (players game)))
               (snapshot game))]
         ++ notify_opponent (players game')
              (opponentOfIndex (indexOf previousId (players game))) OpponentReconnected)
        false
    ∧ players game' !! Z.to_nat (indexOf previousId (players game)) = Some socketId
    ∧ (∀ j, j ≠ Z.to_nat (indexOf previousId (players game)) →
            players game' !! j = players game !! j)
    ∧ playerInfo game' !! previousId = None
    ∧ (socketId ≠ previousId →
       playerInfo game' !! socketId = Some (mkInfo (color info) true now))
    ∧ (∀ id, id ≠ socketId → id ≠ previousId →
             playerInfo game' !! id = playerInfo game !! id)
    ∧ gameState game' = gameState game ∧ turn game' = turn game
    ∧ lastActivity game' = lastActivity game
    ∧ finished game' = finished game ∧ result game' = result game.
Proof.
  intros Hg Hin Hinfo. unfold reconnect_to_game. rewrite Hg, Hinfo.
  pose proof (indexOf_in _ _ Hin) as Hrange.
  case_decide as Hidx; [|apply indexOf_minus_one in Hidx; done].
  exists (set_playerInfo
            (delete previousId
               (<[socketId := mkInfo (color info) true now]> (playerInfo game)))
            (set_players
               (<[Z.to_nat (indexOf previousId (players game)) := socketId]> (players game))
               game)).
  split; [reflexivity|]. cbn.
  split; [apply list_lookup_insert_eq; lia|].
  split; [intros j Hj; by rewrite list_lookup_insert_ne|].
  split; [apply lookup_delete_eq|].
  split; [intros Hne; by rewrite lookup_delete_ne, lookup_insert_eq|].
  split; [|done].
  intros id Hs Hp. by rewrite lookup_delete_ne, lookup_insert_ne.
Qed.

Lemma reconnect_takes_over_slot_witness :
  ∃ game',
    reconnect_to_game 8 "C" "g1" "B" opening_table
    = mkReply (<["g1" := game']> opening_table)
        ([SocketJoin "C" "g1";
          SocketEmit "C"
            (ReconnectedToGame "g1" (colorOfIndex (indexOf "B" (players opening_game)))
               (snapshot opening_game))]
         ++ notify_opponent (players game')
              (opponentOfIndex (indexOf "B" (players opening_game))) OpponentReconnected)
        false
    ∧ players game' !! Z.to_nat (indexOf "B" (players opening_game)) = Some "C"
    ∧ (∀ j, j ≠ Z.to_nat (indexOf "B" (players opening_game)) →
            players game' !! j = players opening_game !! j)
    ∧ playerInfo game' !! "B" = None
    ∧ ("C" ≠ "B" → playerInfo game' !! "C" = Some (mkInfo Black true 8))
    ∧ (∀ id, id ≠ "C" → id ≠ "B" →
             playerInfo game' !! id = playerInfo opening_game !! id)
    ∧ gameState game' = gameState opening_game ∧ turn game' = turn opening_game
    ∧ lastActivity game' = lastActivity opening_game
    ∧ finished game' = finished opening_game ∧ result game' = result opening_game.
Proof.
  apply (reconnect_takes_over_slot (engine := sampleEngine) 8 "C" "g1" "B"
           opening_table opening_game (mkInfo Black true 2)).
  - by vm_compute.
  - apply indexOf_found. by vm_compute.
  - by vm_compute.
Defined.

Example reconnect_reply_of_the_sample :
  sent (reconnect_to_game 8 "C" "g1" "B" opening_table)
  = [SocketJoin "C" "g1";
     SocketEmit "C"
       (ReconnectedToGame "g1" Black (mkSnapshot "e2e4" Black false false false));
     RoomEmit "A" OpponentReconnected].
Proof. by vm_compute. Qed.

(** X17. A player who asks twice to reconnect under the identity it
    already has makes the handler throw: the first request, if it goes
    through, deletes the player's own [playerInfo] entry, and the second
    then fails on the missing entry before anything is sent. *)
Theorem reconnect_under_own_id_twice_throws `{engine : RulesEngine}
    now1 now2 socketId gameId (games : gmap string Game) game :
  games !! gameId = Some game →
  socketId ∈ players game →
  uncaught
    (reconnect_to_game now2 socketId gameId socketId
       (table (reconnect_to_game now1 socketId gameId socketId games))) = true
  ∧ sent
      (reconnect_to_game now2 socketId gameId socketId
         (table (reconnect_to_game now1 socketId gameId socketId games))) = [].
Proof.
  intros Hg Hin.
  pose proof (indexOf_lookup _ _ Hin) as Hslot.
  assert (∃ game1,
            table (reconnect_to_game now1 socketId gameId socketId games) !! gameId
            = Some game1
            ∧ socketId ∈ players game1 ∧ playerInfo game1 !! socketId = None)
    as (game1 & Hg1 & Hin1 & Hinfo1).
  { destruct (playerInfo game !! socketId) as [info|] eqn:Hinfo.
    - unfold reconnect_to_game. rewrite Hg, Hinfo.
      case_decide as Hidx; [|apply indexOf_minus_one in Hidx; done].
      cbn [table done_with]. rewrite lookup_insert_eq. eexists. split; [done|]. cbn.
      split; [by eapply elem_of_insert_new|apply lookup_delete_eq].
    - rewrite (reconnect_throws _ _ _ _ _ _ Hg Hin Hinfo). cbn [table].
      rewrite lookup_insert_eq. eexists. split; [done|]. cbn.
      split; [by eapply elem_of_insert_new|apply lookup_delete_eq]. }
  by rewrite (reconnect_throws _ _ _ _ _ _ Hg1 Hin1 Hinfo1).
Qed.

Lemma reconnect_under_own_id_twice_throws_witness :
  uncaught
    (reconnect_to_game 6 "B" "g1" "B" (table (reconnect_to_game 5 "B" "g1" "B" opening_table)))
  = true
  ∧ sent
      (reconnect_to_game 6 "B" "g1" "B"
         (table (reconnect_to_game 5 "B" "g1" "B" opening_table))) = [].
Proof.
  apply (reconnect_under_own_id_twice_throws (engine := sampleEngine) 5 6 "B" "g1"
           opening_table opening_game).
  - by vm_compute.
  - apply indexOf_found. by vm_compute.
Defined.

(** ** Disconnection *)

Section DisconnectFacts.

Context `{engine : RulesEngine}.

Lemma notify_opponent_elem (ps : list string) i m eff :
  eff ∈ notify_opponent ps i m → ∃ opponent, ps !! i = Some opponent ∧ eff = RoomEmit opponent m.
Proof.
  unfold notify_opponent. destruct (ps !! i) as [opponent|]; [|by intros ?%elem_of_nil].
  intros ->%list_elem_of_singleton. by exists opponent.
Qed.

Lemma disconnect_sent_elem now socketId (games : gmap string Game) eff :
  eff ∈ sent (disconnect now socketId games) →
  ∃ gameId game opponent,
    games !! gameId = Some game ∧ socketId ∈ players game
    ∧ players game !! opponentOfIndex (indexOf socketId (players game)) = Some opponent
    ∧ eff = RoomEmit opponent OpponentDisconnected.
Proof.
  unfold disconnect. cbn [sent done_with]. intros Hin.
  apply list_elem_of_In, in_concat in Hin as (notices & Hnotices & Heff).
  apply in_map_iff in Hnotices as ([gameId game] & <- & Hkv).
  apply list_elem_of_In, elem_of_map_to_list in Hkv.
  apply list_elem_of_In in Heff. cbn [snd] in Heff. unfold disconnect_notice in Heff.
  case_decide as Hidx; [|by apply elem_of_nil in Heff].
  apply notify_opponent_elem in Heff as (opponent & Hopp & ->).
  exists gameId, game, opponent. split; [done|]. split; [by apply indexOf_found|done].
Qed.

Lemma disconnect_lookup now socketId (games : gmap string Game) gameId :
  table (disconnect now socketId games) !! gameId
  = disconnect_game now socketId <$> games !! gameId.
Proof. unfold disconnect. cbn [table done_with]. apply lookup_fmap. Qed.

End DisconnectFacts.

(** X18. [disconnect] marks the player as not connected in each game
    where it holds a slot, and a later [heartbeat] of the same socket marks
    it connected again; the colour of the entry and the rest of the
    session are as before, and the heartbeat sends nothing. *)
Theorem heartbeat_undoes_disconnect `{engine : RulesEngine}
    t1 t2 socketId gameId (games : gmap string Game) game info :
  games !! gameId = Some game →
  socketId ∈ players game →
  playerInfo game !! socketId = Some info →
  table (disconnect t1 socketId games) !! gameId
  = Some (set_playerInfo (<[socketId := mkInfo (color info) false t1]> (playerInfo game)) game)
  ∧ heartbeat t2 socketId gameId (table (disconnect t1 socketId games))
    = mkReply
        (<[gameId := set_playerInfo
                       (<[socketId := mkInfo (color info) true t2]> (playerInfo game)) game]>
           (table (disconnect t1 socketId games)))
        [] false.
Proof.
  intros Hg Hin Hinfo.
  assert (table (disconnect t1 socketId games) !! gameId
          = Some (set_playerInfo
                    (<[socketId := mkInfo (color info) false t1]> (playerInfo game)) game))
    as Hg1.
  { rewrite disconnect_lookup, Hg. cbn. unfold disconnect_game. rewrite Hinfo.
    case_decide as Hidx; [done|]. apply indexOf_minus_one in Hidx. done. }
  split; [done|]. unfold heartbeat. rewrite Hg1. cbn [playerInfo set_playerInfo].
  rewrite lookup_insert_eq. cbn [color]. unfold set_playerInfo. cbn.
  by rewrite insert_insert_eq.
Qed.

Lemma heartbeat_undoes_disconnect_witness :
  table (disconnect 5 "B" opening_table) !! "g1"
  = Some (set_playerInfo (<["B" := mkInfo Black false 5]> (playerInfo opening_game))
            opening_game)
  ∧ heartbeat 6 "B" "g1" (table (disconnect 5 "B" opening_table))
    = mkReply
        (<["g1" := set_playerInfo (<["B" := mkInfo Black true 6]> (playerInfo opening_game))
                     opening_game]>
           (table (disconnect 5 "B" opening_table)))
        [] false.
Proof.
  apply (heartbeat_undoes_disconnect (engine := sampleEngine) 5 6 "B" "g1"
           opening_table opening_game (mkInfo Black true 2)).
  - by vm_compute.
  - apply indexOf_found. by vm_compute.
  - by vm_compute.
Defined.

(** X19. [disconnect] leaves the games in which the socket holds no slot
    exactly as they are, and everything it sends is an
    [opponent-disconnected] notice to the holder of the opposite slot of a
    game in which the socket does hold a slot. *)
Theorem disconnect_reaches_only_own_games `{engine : RulesEngine}
    now socketId (games : gmap string Game) :
  (∀ gameId game,
     games !! gameId = Some game → socketId ∉ players game →
     table (disconnect now socketId games) !! gameId = Some game)
  ∧ (∀ eff,
       eff ∈ sent (disconnect now socketId games) →
       ∃ gameId game opponent,
         games !! gameId = Some game ∧ socketId ∈ players game
         ∧ players game !! opponentOfIndex (indexOf socketId (players game)) = Some opponent
         ∧ eff = RoomEmit opponent OpponentDisconnected)
  ∧ uncaught (disconnect now socketId games) = false.
Proof.
  split; [|split; [apply disconnect_sent_elem|done]].
  intros gameId game Hg Hnot. rewrite disconnect_lookup, Hg. cbn.
  unfold disconnect_game. rewrite (indexOf_notin _ _ Hnot). by case_decide.
Qed.

(** X20. After the player who is to move next has disconnected, an
    accepted move is broadcast to the room and nothing else is sent: there
    is no [your-turn] notice for a player marked as not connected. *)
Theorem no_turn_notice_for_the_disconnected `{engine : RulesEngine}
    now later mover gone gameId from to (games : gmap string Game) game next mv :
  games !! gameId = Some game →
  players game !! (match flip (turn game) with White => 0 | Black => 1 end)%nat = Some gone →
  turn game = colorOfIndex (indexOf mover (players game)) →
  move (gameState game) from to = Moved next mv →
  sent (make_move later mover gameId from to (table (disconnect now gone games)))
  = [RoomEmit gameId
       (MoveMade from to
          (mkSnapshot (fen next) (flip (turn game)) (isCheck next) (isCheckmate next)
             (isDraw next)) mv)].
Proof.
  intros Hg Hgone Hturn Hmv.
  assert (gone ∈ players game) as Hin by (by eapply list_elem_of_lookup_2).
  assert (∃ game1,
            table (disconnect now gone games) !! gameId = Some game1
            ∧ players game1 = players game ∧ turn game1 = turn game
            ∧ gameState game1 = gameState game
            ∧ ∀ info, playerInfo game1 !! gone = Some info → connected info = false)
    as (game1 & Hg1 & Hps & Ht & Hpos & Hoff).
  { rewrite disconnect_lookup, Hg. cbn. eexists. split; [done|].
    unfold disconnect_game.
    case_decide as Hidx; [|apply indexOf_minus_one in Hidx; done].
    destruct (playerInfo game !! gone) as [info|] eqn:Hinfo; cbn.
    - do 3 (split; [done|]). intros info'. rewrite lookup_insert_eq. by intros [= <-].
    - do 3 (split; [done|]). intros info'. by rewrite Hinfo. }
  rewrite (make_move_applied later mover gameId from to _ game1 next mv Hg1);
    [|by rewrite Ht, Hps|by rewrite Hpos].
  cbn [sent done_with]. unfold snapshot. cbn. rewrite Ht. f_equal.
  unfold your_turn_notice. cbn. rewrite Hps, Hgone.
  destruct gone as [|a gone']; [done|].
  destruct (playerInfo game1 !! String a gone') as [info|] eqn:Hinfo; [|done].
  by rewrite (Hoff info eq_refl).
Qed.

Lemma no_turn_notice_for_the_disconnected_witness :
  sent (make_move 6 "B" "g1" "e7" "e5" (table (disconnect 5 "A" opening_table)))
  = [RoomEmit "g1"
       (MoveMade (engine := sampleEngine) "e7" "e5"
          (mkSnapshot (@fen sampleEngine [("e2", "e4"); ("e7", "e5")])
             (flip (turn opening_game))
             (@isCheck sampleEngine [("e2", "e4"); ("e7", "e5")])
             (@isCheckmate sampleEngine [("e2", "e4"); ("e7", "e5")])
             (@isDraw sampleEngine [("e2", "e4"); ("e7", "e5")]))
          ("e7", "e5"))].
Proof.
  apply (no_turn_notice_for_the_disconnected (engine := sampleEngine) 5 6 "B" "A" "g1"
           "e7" "e5" opening_table opening_game [("e2", "e4"); ("e7", "e5")] ("e7", "e5"));
    by vm_compute.
Defined.

(** ** After the end of a game *)

(** X21. Nothing stops play on a finished game: after [accept-draw] or
    [resign-game], a move of the side to move that the engine applies is
    accepted as before, and the session keeps [finished] and the recorded
    result while position and turn advance. *)
Theorem finished_game_still_takes_moves `{engine : RulesEngine}
    now later e mover gameId from to (games : gmap string Game) game next mv :
  games !! gameId = Some game →
  closes gameId e →
  turn game = colorOfIndex (indexOf mover (players game)) →
  move (gameState game) from to = Moved next mv →
  move_accepted gameId (make_move later mover gameId from to (table (handle now e games)))
  ∧ ∃ game',
      table (make_move later mover gameId from to (table (handle now e games))) !! gameId
      = Some game'
      ∧ gameState game' = next ∧ turn game' = flip (turn game)
      ∧ finished game' = true
      ∧ result game' = Some (closing_outcome (players game) e).
Proof.
  intros Hg Hc Hturn Hmv. rewrite (handle_closing _ _ _ _ _ Hg Hc). cbn [table done_with].
  set (closed := set_finished (closing_outcome (players game) e) (set_lastActivity now game)).
  assert (<[gameId := closed]> games !! gameId = Some closed) as Hg1
    by apply lookup_insert_eq.
  split.
  - by eapply (make_move_applied_accepted later mover gameId from to _ closed).
  - rewrite (make_move_applied later mover gameId from to _ closed next mv Hg1 Hturn Hmv).
    cbn [table done_with]. rewrite lookup_insert_eq. by eexists.
Qed.

Lemma finished_game_still_takes_moves_witness :
  move_accepted "g1"
    (make_move 6 "B" "g1" "e7" "e5" (table (handle 5 (ResignGame "B" "g1") opening_table)))
  ∧ ∃ game',
      table (make_move 6 "B" "g1" "e7" "e5"
               (table (handle 5 (ResignGame "B" "g1") opening_table))) !! "g1"
      = Some game'
      ∧ gameState game' = [("e2", "e4"); ("e7", "e5")]
      ∧ turn game' = flip (turn opening_game)
      ∧ finished game' = true
      ∧ result game' = Some (closing_outcome (players opening_game) (ResignGame "B" "g1")).
Proof.
  apply (finished_game_still_takes_moves (engine := sampleEngine) 5 6
           (ResignGame "B" "g1") "B" "g1" "e7" "e5" opening_table opening_game
           [("e2", "e4"); ("e7", "e5")] ("e7", "e5")); by vm_compute.
Defined.

(** ** Who is addressed *)

Local Ltac split_sent Hin :=
  repeat
    (first
       [ apply elem_of_nil in Hin; destruct Hin
       | apply elem_of_cons in Hin as [Hin|Hin]; [try discriminate Hin|] ]).

(** X22. Handling an event that is not addressed to one of the
    [inherited_names], every room the server sends to is the room of a game
    in the table or the own room of a socket that holds a slot in one of
    its games. *)
Theorem rooms_addressed_are_games_or_players `{engine : RulesEngine}
    now e (games : gmap string Game) room m :
  plainly_addressed e →
  RoomEmit room m ∈ sent (handle now e games) →
  is_Some (table (handle now e games) !! room)
  ∨ ∃ gameId game', table (handle now e games) !! gameId = Some game'
                    ∧ room ∈ players game'.
Proof.
  intros _. destruct e; cbn [handle].
  - unfold sync_game_state. destruct (games !! gameId); cbn [sent done_with table]; intros Hin; split_sent Hin.
  - unfold create_game. cbn. intros Hin. split_sent Hin.
  - unfold join_game. destruct (games !! gameId) as [game|] eqn:Hg; cbn [sent done_with table];
      [|intros Hin; split_sent Hin].
    destruct (_ <? _)%nat; cbn [sent done_with table]; intros Hin; split_sent Hin.
    injection Hin as -> _. left. rewrite lookup_insert_eq. by eexists.
  - unfold make_move. destruct (games !! gameId) as [game|] eqn:Hg; cbn [sent done_with table];
      [|intros Hin; split_sent Hin].
    case_decide; [cbn [sent done_with table]; intros Hin; split_sent Hin|].
    destruct (move _ _ _) as [next mv| |msg]; cbn [sent done_with table]; intros Hin;
      [|split_sent Hin..].
    apply elem_of_cons in Hin as [Hin|Hin].
    + injection Hin as -> _. left. rewrite lookup_insert_eq. by eexists.
    + apply your_turn_notice_only_your_turn in Hin as (id & info & [= -> _] & Hid & _).
      right. eexists _, _. rewrite lookup_insert_eq. split; [done|].
      by eapply list_elem_of_lookup_2.
  - unfold heartbeat. destruct (games !! gameId) as [game|]; cbn [sent done_with table];
      [|intros Hin; split_sent Hin].
    destruct (playerInfo game !! socketId); cbn [sent done_with table]; intros Hin; split_sent Hin.
  - unfold reconnect_to_game. destruct (games !! gameId) as [game|] eqn:Hg; cbn [sent done_with table];
      [|intros Hin; split_sent Hin].
    case_decide; [|cbn [sent done_with table]; intros Hin; split_sent Hin].
    destruct (playerInfo game !! previousId); cbn [sent done_with table app]; intros Hin; [|split_sent Hin].
    do 2 (apply elem_of_cons in Hin as [Hin|Hin]; [discriminate Hin|]).
    apply notify_opponent_elem in Hin as (opponent & Hopp & [= -> _]).
    right. eexists _, _. rewrite lookup_insert_eq. split; [done|].
    cbn. by eapply list_elem_of_lookup_2.
  - unfold offer_draw. destruct (games !! gameId) as [game|] eqn:Hg; cbn [sent done_with table];
      [|intros Hin; split_sent Hin].
    destruct (_ <? _)%nat; cbn [sent done_with table]; intros Hin; [|split_sent Hin].
    apply notify_opponent_elem in Hin as (opponent & Hopp & [= -> _]).
    right. eexists _, _. rewrite lookup_insert_eq. split; [done|].
    cbn. by eapply list_elem_of_lookup_2.
  - unfold accept_draw. destruct (games !! gameId) as [game|] eqn:Hg; cbn [sent done_with table];
      intros Hin; split_sent Hin.
    injection Hin as -> _. left. rewrite lookup_insert_eq. by eexists.
  - unfold resign_game. destruct (games !! gameId) as [game|] eqn:Hg; cbn [sent done_with table];
      intros Hin; split_sent Hin.
    injection Hin as -> _. left. rewrite lookup_insert_eq. by eexists.
  - intros Hin.
    apply disconnect_sent_elem in Hin as (gameId & game & opponent & Hg & _ & Hopp & Heq).
    injection Heq as -> _. right. exists gameId, (disconnect_game now socketId game).
    rewrite disconnect_lookup, Hg. split; [done|].
    rewrite players_disconnect_game. by eapply list_elem_of_lookup_2.
  - cbn. intros Hin. split_sent Hin.
Qed.

Lemma rooms_addressed_are_games_or_players_witness :
  is_Some (table (handle 6 (OfferDraw "B" "g1") opening_table) !! "A")
  ∨ ∃ gameId game', table (handle 6 (OfferDraw "B" "g1") opening_table) !! gameId = Some game'
                    ∧ "A" ∈ players game'.
Proof.
  apply (rooms_addressed_are_games_or_players (engine := sampleEngine) 6
           (OfferDraw "B" "g1") opening_table "A" DrawOffered).
  - intros gameId [= <-]. reflexivity.
  - vm_compute. apply list_elem_of_here.
Defined.

(** X23. A socket is put into the room of a game only as it takes a slot
    in that game: by creating it, by joining it, or by reconnecting to it. *)
Theorem subscribed_only_with_a_slot `{engine : RulesEngine}
    now e (games : gmap string Game) socketId room :
  SocketJoin socketId room ∈ sent (handle now e games) →
  ∃ game', table (handle now e games) !! room = Some game' ∧ socketId ∈ players game'.
Proof.
  destruct e; cbn [handle].
  - unfold sync_game_state. destruct (games !! gameId); cbn [sent done_with table]; intros Hin; split_sent Hin.
  - unfold create_game. cbn. intros Hin. split_sent Hin.
    injection Hin as -> ->. eexists. rewrite lookup_insert_eq. split; [done|].
    cbn. apply list_elem_of_here.
  - unfold join_game. destruct (games !! gameId) as [game|] eqn:Hg; cbn [sent done_with table];
      [|intros Hin; split_sent Hin].
    destruct (_ <? _)%nat; cbn [sent done_with table]; intros Hin; split_sent Hin.
    injection Hin as -> ->. eexists. rewrite lookup_insert_eq. split; [done|].
    cbn. apply elem_of_app. right. apply list_elem_of_here.
  - unfold make_move. destruct (games !! gameId) as [game|] eqn:Hg; cbn [sent done_with table];
      [|intros Hin; split_sent Hin].
    case_decide; [cbn [sent done_with table]; intros Hin; split_sent Hin|].
    destruct (move _ _ _) as [next mv| |msg]; cbn [sent done_with table]; intros Hin;
      [|split_sent Hin..].
    apply elem_of_cons in Hin as [Hin|Hin]; [discriminate Hin|].
    by apply your_turn_notice_only_your_turn in Hin as (id & info & [=] & _).
  - unfold heartbeat. destruct (games !! gameId) as [game|]; cbn [sent done_with table];
      [|intros Hin; split_sent Hin].
    destruct (playerInfo game !! socketId0); cbn [sent done_with table]; intros Hin; split_sent Hin.
  - unfold reconnect_to_game. destruct (games !! gameId) as [game|] eqn:Hg; cbn [sent done_with table];
      [|intros Hin; split_sent Hin].
    case_decide as Hidx; [|cbn [sent done_with table]; intros Hin; split_sent Hin].
    apply indexOf_found in Hidx. pose proof (indexOf_lookup _ _ Hidx) as Hslot.
    destruct (playerInfo game !! previousId); cbn [sent done_with table app]; intros Hin; [|split_sent Hin].
    apply elem_of_cons in Hin as [Hin|Hin].
    + injection Hin as -> ->. eexists. rewrite lookup_insert_eq. split; [done|].
      cbn. by eapply elem_of_insert_new.
    + apply elem_of_cons in Hin as [Hin|Hin]; [discriminate Hin|].
      by apply notify_opponent_elem in Hin as (opponent & _ & [=]).
  - unfold offer_draw. destruct (games !! gameId) as [game|] eqn:Hg; cbn [sent done_with table];
      [|intros Hin; split_sent Hin].
    destruct (_ <? _)%nat; cbn [sent done_with table]; intros Hin; [|split_sent Hin].
    by apply notify_opponent_elem in Hin as (opponent & _ & [=]).
  - unfold accept_draw. destruct (games !! gameId) as [game|] eqn:Hg; cbn [sent done_with table];
      intros Hin; split_sent Hin.
  - unfold resign_game. destruct (games !! gameId) as [game|] eqn:Hg; cbn [sent done_with table];
      intros Hin; split_sent Hin.
  - intros Hin.
    by apply disconnect_sent_elem in Hin as (gameId & game & opponent & _ & _ & _ & [=]).
  - cbn. intros Hin. split_sent Hin.
Qed.

Lemma subscribed_only_with_a_slot_witness :
  ∃ game', table (handle 8 (ReconnectToGame "C" "g1" "B") opening_table) !! "g1" = Some game'
           ∧ "C" ∈ players game'.
Proof.
  apply (subscribed_only_with_a_slot (engine := sampleEngine) 8
           (ReconnectToGame "C" "g1" "B") opening_table "C" "g1").
  vm_compute. apply list_elem_of_here.
Defined.

(** ** From creation to the first move *)

